(** * palette-cut: frame sampling and colour analysis

    A shallow embedding of [src/utils/videoProcessor.js] (the version with
    the FFmpeg.wasm fallback) and the properties its specification states,
    followed by further properties of the same code and of the file-name
    handling of [FilmInfo.jsx] and [App.jsx].

    Modelling conventions.
    - JavaScript numbers are modelled as exact rationals ([Q]); [Math.round]
      is [Qfloor (x + 1/2)], [Math.pow (x, 2)] is [x ^ 2], and [Math.sqrt]
      only ever feeds a comparison against a non-negative constant, which is
      decided on the squares ([colorDistance_lt], justified against the
      real-valued [colorDistance] by [colorDistance_lt_spec]).
    - An exception is a [Throw]; a [try]/[catch] is a [match] on it.
    - The browser and the FFmpeg engine are environments: the native video
      element is a stream of events fed to the handlers the code installs,
      the engine is a record of the outcomes of its calls.
    - Every call of the progress callback, every seek and every engine
      command is appended to a log of [Action]s. *)

From Stdlib Require Import ZArith QArith Qround Qabs Qminmax Qreals Reals.
From Stdlib Require Import Lia Lra Lqa List Sorted Permutation String Ascii Bool.
From stdpp Require Import gmap.
Import ListNotations.

Open Scope Q_scope.

(** ** Configuration *)

Definition FRAME_COUNT : nat := 240.
Definition SAMPLE_WIDTH : nat := 32.
Definition SAMPLE_HEIGHT : nat := 32.

(** ** JavaScript values *)

(** [Math.round]: the nearest integer, ties towards plus infinity. *)
Definition Math_round (x : Q) : Z := Qfloor (x + (1#2)).

Definition Qlt_bool (x y : Q) : bool := negb (Qle_bool y x).

(** The length of an array, as a number. *)
Definition len {A} (l : list A) : Q := inject_Z (Z.of_nat (length l)).

(** An exception carries its message. *)
Inductive completion (A : Type) : Type :=
| Normal (a : A)
| Throw (message : string).
Arguments Normal {A} a.
Arguments Throw {A} message.

(** ** Colours *)

Record Color := mkColor { r : Q; g : Q; b : Q }.

Record Cluster := mkCluster { center : Color; count : Z }.

Record AnalysisResult :=
  mkResult { average : Color; dominant : Color; least : Color }.

Definition sqdist (c1 c2 : Color) : Q :=
  (r c1 - r c2) ^ 2 + (g c1 - g c2) ^ 2 + (b c1 - b c2) ^ 2.

(** [colorDistance]: the Euclidean distance, a real number. *)
Definition colorDistance (c1 c2 : Color) : R :=
  sqrt (Q2R (sqdist c1 c2)).

(** [colorDistance(c1, c2) < t], decided without the square root. *)
Definition colorDistance_lt (c1 c2 : Color) (t : Q) : bool :=
  Qlt_bool (sqdist c1 c2) (t * t).

Definition THRESHOLD : Q := 30.

(** [{ r: Math.round(x), g: Math.round(y), b: Math.round(z) }] *)
Definition rounded (x y z : Q) : Color :=
  mkColor (inject_Z (Math_round x)) (inject_Z (Math_round y))
          (inject_Z (Math_round z)).

(** ** analyzeColors *)

(** The body of the [if] inside the cluster loop: [cluster.count++] and the
    three centre updates. *)
Definition absorb (cluster : Cluster) (color : Color) : Cluster :=
  let count' := (count cluster + 1)%Z in
  let n := inject_Z count' in
  let n1 := inject_Z (count' - 1) in
  mkCluster
    (mkColor ((r (center cluster) * n1 + r color) / n)
             ((g (center cluster) * n1 + g color) / n)
             ((b (center cluster) * n1 + b color) / n))
    count'.

(** [for (let cluster of clusters) { if (...) { ...; found = true; break } }]:
    [Some] of the updated array when [found], [None] otherwise. *)
Fixpoint scanClusters (color : Color) (clusters : list Cluster)
  : option (list Cluster) :=
  match clusters with
  | [] => None
  | cluster :: rest =>
      if colorDistance_lt color (center cluster) THRESHOLD
      then Some (absorb cluster color :: rest)
      else option_map (cons cluster) (scanClusters color rest)
  end.

(** One iteration of the second [colors.forEach]. *)
Definition addColor (clusters : list Cluster) (color : Color) : list Cluster :=
  match scanClusters color clusters with
  | Some clusters' => clusters'
  | None => clusters ++ [mkCluster color 1]
  end.

Definition buildClusters (colors : list Color) : list Cluster :=
  fold_left addColor colors [].

(** [clusters.sort((a, b) => b.count - a.count)]: descending by count; the
    sort of an array is stable, so clusters of equal count keep their order.
    [x] is inserted in front of the elements that followed it, before the
    first one whose count is not greater. *)
Section Sort.
Context {A : Type} (count : A -> Z).

Fixpoint insertByCount (x : A) (l : list A) : list A :=
  match l with
  | [] => [x]
  | y :: l' =>
      if (count y <=? count x)%Z then x :: l else y :: insertByCount x l'
  end.

Definition sortByCount (clusters : list A) : list A :=
  fold_right insertByCount [] clusters.

(** The order the sort establishes. *)
Definition descending (x y : A) : Prop := (count y <= count x)%Z.
End Sort.

(** The first [colors.forEach]: the three running totals. *)
Definition totals (colors : list Color) : Q * Q * Q :=
  fold_left (fun '(totalR, totalG, totalB) c =>
               (totalR + r c, totalG + g c, totalB + b c))
            colors (0, 0, 0).

(** [analyzeColors(colors)] for an array [colors]; [None] is [null]. *)
Definition analyzeColors (colors : list Color)
  : completion (option AnalysisResult) :=
  match colors with
  | [] => Normal None
  | _ =>
      let '(totalR, totalG, totalB) := totals colors in
      let average := rounded (totalR / len colors) (totalG / len colors)
                             (totalB / len colors) in
      let clusters := sortByCount count (buildClusters colors) in
      match clusters with
      | [] => Throw "TypeError: clusters[0] is undefined"
      | first :: _ =>
          let dominant := center first in
          let least := center (List.last clusters first) in
          Normal (Some (mkResult average
            (rounded (r dominant) (g dominant) (b dominant))
            (rounded (r least) (g least) (b least))))
      end
  end.


(** *** The clustering step in the words of the specification

    "Scan existing clusters in creation order; assign to the first cluster
    whose centroid is within a fixed distance threshold; update that
    cluster's centroid via incremental mean
    ([center += (color - center) / newCount]) and increment its count. If no
    cluster qualifies, create a new cluster with that color as its centroid
    and count 1." *)

Fixpoint firstFit (color : Color) (clusters : list Cluster) : option nat :=
  match clusters with
  | [] => None
  | cluster :: rest =>
      if colorDistance_lt color (center cluster) THRESHOLD then Some O
      else option_map S (firstFit color rest)
  end.

Definition incrementalMean (c color : Color) (newCount : Z) : Color :=
  mkColor (r c + (r color - r c) / inject_Z newCount)
          (g c + (g color - g c) / inject_Z newCount)
          (b c + (b color - b c) / inject_Z newCount).

Definition assignSpec (clusters : list Cluster) (color : Color)
  : list Cluster :=
  match firstFit color clusters with
  | Some i =>
      match clusters !! i with
      | Some cluster =>
          let newCount := (count cluster + 1)%Z in
          <[i := mkCluster (incrementalMean (center cluster) color newCount)
                           newCount]> clusters
      | None => clusters
      end
  | None => clusters ++ [mkCluster color 1]
  end.

Definition clusterSpec (colors : list Color) : list Cluster :=
  fold_left assignSpec colors [].

(** Numbers are compared as rationals, records field by field. *)
Definition Color_equiv (c1 c2 : Color) : Prop :=
  r c1 == r c2 /\ g c1 == g c2 /\ b c1 == b c2.

Definition Cluster_equiv (k1 k2 : Cluster) : Prop :=
  Color_equiv (center k1) (center k2) /\ count k1 = count k2.

(** The arithmetic mean of a list of numbers. *)
Definition Qsum (l : list Q) : Q := fold_right Qplus 0 l.
Definition mean (l : list Q) : Q := Qsum l / len l.

(** [z] is an integer nearest to [x]. *)
Definition nearestInteger (x : Q) (z : Z) : Prop :=
  Qabs (inject_Z z - x) <= 1#2.

(** Every pair of colours of the array is closer than the threshold. *)
Definition pairwiseWithin (colors : list Color) : bool :=
  forallb (fun c1 => forallb (fun c2 => colorDistance_lt c1 c2 THRESHOLD)
                             colors) colors.

(** ** analyzeColors on the object store

    The array handed to [analyzeColors] holds references to colour objects,
    and [cluster.center] is a reference too. Here the objects live in a
    store, reads and writes go through references, and [{ ...color }]
    allocates. [None] means that a dangling reference was followed, which no
    JavaScript program can do. *)

Abbreviation loc := positive (only parsing).
Abbreviation store := (gmap positive Color) (only parsing).

Record ClusterRef := mkClusterRef { centerOf : loc; countOf : Z }.

Inductive field := field_r | field_g | field_b.

Definition getField (f : field) (c : Color) : Q :=
  match f with field_r => r c | field_g => g c | field_b => b c end.

Definition setField (f : field) (v : Q) (c : Color) : Color :=
  match f with
  | field_r => mkColor v (g c) (b c)
  | field_g => mkColor (r c) v (b c)
  | field_b => mkColor (r c) (g c) v
  end.

Definition read (h : store) (l : loc) (f : field) : option Q :=
  getField f <$> h !! l.

Definition write (h : store) (l : loc) (f : field) (v : Q) : option store :=
  o ← h !! l; Some (<[l := setField f v o]> h).

(** [{ ...color }] *)
Definition spread (h : store) (color : loc) : option (loc * store) :=
  o ← h !! color;
  let l := fresh (dom h) in
  Some (l, <[l := o]> h).

(** [cluster.center.f = (cluster.center.f * (cluster.count - 1) + color.f)
    / cluster.count], with [cluster.count] already incremented. *)
Definition updateCenter (f : field) (count' : Z) (centre color : loc)
    (h : store) : option store :=
  x ← read h centre f;
  y ← read h color f;
  write h centre f ((x * inject_Z (count' - 1) + y) / inject_Z count').

Fixpoint scanClustersH (h : store) (color : loc) (clusters : list ClusterRef)
  : option (option (store * list ClusterRef)%type) :=
  match clusters with
  | [] => Some None
  | cluster :: rest =>
      c1 ← h !! color;
      c2 ← h !! centerOf cluster;
      if colorDistance_lt c1 c2 THRESHOLD then
        let count' := (countOf cluster + 1)%Z in
        h1 ← updateCenter field_r count' (centerOf cluster) color h;
        h2 ← updateCenter field_g count' (centerOf cluster) color h1;
        h3 ← updateCenter field_b count' (centerOf cluster) color h2;
        Some (Some (h3, mkClusterRef (centerOf cluster) count' :: rest))
      else
        found ← scanClustersH h color rest;
        Some (option_map (λ st', (st'.1, cluster :: st'.2)) found)
  end.

Definition addColorH (st : store * list ClusterRef) (color : loc)
  : option (store * list ClusterRef) :=
  found ← scanClustersH st.1 color st.2;
  match found with
  | Some st' => Some st'
  | None =>
      '(l, h') ← spread st.1 color;
      Some (h', st.2 ++ [mkClusterRef l 1])
  end.

Fixpoint forEachH (colors : list loc) (st : store * list ClusterRef)
  : option (store * list ClusterRef) :=
  match colors with
  | [] => Some st
  | color :: colors' => st' ← addColorH st color; forEachH colors' st'
  end.

Definition analyzeColorsH (h : store) (colors : list loc)
  : option (store * completion (option AnalysisResult)) :=
  match colors with
  | [] => Some (h, Normal None)
  | _ =>
      values ← mapM (λ l, h !! l) colors;
      let '(totalR, totalG, totalB) := totals values in
      let average := rounded (totalR / len colors) (totalG / len colors)
                             (totalB / len colors) in
      st ← forEachH colors (h, []);
      let clusters := sortByCount countOf st.2 in
      match clusters with
      | [] => Some (st.1, Throw "TypeError: clusters[0] is undefined")
      | first :: _ =>
          dominant ← st.1 !! centerOf first;
          least ← st.1 !! centerOf (List.last clusters first);
          Some (st.1, Normal (Some (mkResult average
            (rounded (r dominant) (g dominant) (b dominant))
            (rounded (r least) (g least) (b least)))))
      end
  end.

(** ** Frame averaging *)

(** The [data] of an [ImageData]: four bytes (R, G, B, A) per pixel. *)
Definition ImageData := list Z.

(** The loop of [getAverageColor]: [i] advances four bytes at a time. *)
Fixpoint sumPixels (data : list Z) (acc : Z * Z * Z) : Z * Z * Z :=
  match data with
  | x0 :: x1 :: x2 :: _ :: rest =>
      let '(sr, sg, sb) := acc in
      sumPixels rest (sr + x0, sg + x1, sb + x2)%Z
  | _ => acc
  end.

Definition getAverageColor (data : ImageData) : Color :=
  let '(sr, sg, sb) := sumPixels data (0, 0, 0)%Z in
  let pixelCount := len data / 4 in
  rounded (inject_Z sr / pixelCount) (inject_Z sg / pixelCount)
          (inject_Z sb / pixelCount).

(** ** What the callers can observe *)

Inductive Action :=
| Progress (percent : Z)        (* onProgress(percent) *)
| Seek (time : Q)               (* video.currentTime = time *)
| Revoke                        (* cleanup(): URL.revokeObjectURL(video.src) *)
| Load                          (* ffmpeg.load() *)
| Confirm                       (* confirm(...) *)
| WriteInput                    (* ffmpeg.writeFile(inputName, ...) *)
| Probe                         (* ffmpeg.exec(['-i', inputName]) *)
| Extract (fps : Q)             (* ffmpeg.exec([..., 'fps=...,scale=32:32', ...]) *)
| ReadFile (i : nat)            (* ffmpeg.readFile('out%03d.png') *)
| DeleteFile (i : nat)          (* ffmpeg.deleteFile('out%03d.png') *)
| DeleteInput.                  (* ffmpeg.deleteFile(inputName) *)

Inductive Promise (A : Type) : Type :=
| Pending
| Resolved (value : A)
| Rejected (message : string).
Arguments Pending {A}.
Arguments Resolved {A} value.
Arguments Rejected {A} message.

(** [resolve] and [reject] only act on a pending promise. *)
Definition settle {A} (p new : Promise A) : Promise A :=
  match p with Pending => new | _ => p end.

(** The values the progress callback received, in order. *)
Definition progressOf (log : list Action) : list Z :=
  flat_map (fun a => match a with Progress p => [p] | _ => [] end) log.

Definition seeksOf (log : list Action) : list Q :=
  flat_map (fun a => match a with Seek t => [t] | _ => [] end) log.

(** ** processVideoNative

    The promise executor installs [onerror] and [onloadedmetadata]; the
    latter installs [onseeked] and starts [processFrame], which is also the
    timer callback. The video element delivers [loadedmetadata] once,
    [seeked] only for a seek in progress, a timeout only when one was set,
    and nothing the code reacts to once the promise is settled. *)

(** [video.duration]. *)
Inductive JSNumber := NaN | Infinity | Num (q : Q).

(** [!duration || duration === Infinity] *)
Definition unusable (d : JSNumber) : bool :=
  match d with
  | NaN => true
  | Infinity => true
  | Num q => Qeq_bool q 0
  end.

Inductive VideoEvent :=
| EvError
| EvLoadedMetadata (duration : JSNumber)
| EvSeeked (frame : option ImageData)   (* [None]: getImageData throws *)
| EvTimeout.

Record Native := mkNative {
  promise : Promise (list Color);
  started : bool;               (* onloadedmetadata has set the loop up *)
  duration : Q;
  colors : list Color;
  currentFrame : nat;
  seeking : bool;               (* a seek was requested and has not finished *)
  timer : bool;                 (* setTimeout(processFrame, 0) is pending *)
  log : list Action
}.

Definition initial : Native :=
  mkNative Pending false 0 [] 0 false false [].

Definition cleanup (s : Native) : Native :=
  mkNative (promise s) (started s) (duration s) (colors s) (currentFrame s)
           (seeking s) (timer s) (log s ++ [Revoke]).

Definition settleWith (p : Promise (list Color)) (s : Native) : Native :=
  mkNative (settle (promise s) p) (started s) (duration s) (colors s)
           (currentFrame s) (seeking s) (timer s) (log s).

Definition onerror (s : Native) : Native :=
  settleWith (Rejected "Format not supported") (cleanup s).

Definition seekTime (duration : Q) (currentFrame : nat) : Q :=
  let interval := duration / inject_Z (Z.of_nat FRAME_COUNT) in
  Qmin (interval * inject_Z (Z.of_nat currentFrame)) (duration - (1#10)).

Definition processFrame (s : Native) : Native :=
  if (FRAME_COUNT <=? currentFrame s)%nat then
    settleWith (Resolved (colors s)) (cleanup s)
  else
    mkNative (promise s) (started s) (duration s) (colors s) (currentFrame s)
             true (timer s)
             (log s ++ [Seek (seekTime (duration s) (currentFrame s))]).

Definition valueOf (d : JSNumber) : Q :=
  match d with Num q => q | _ => 0 end.

Definition onloadedmetadata (d : JSNumber) (s : Native) : Native :=
  if unusable d then
    settleWith (Rejected "Could not determine video duration") (cleanup s)
  else
    processFrame (mkNative (promise s) true (valueOf d) [] 0 (seeking s)
                           (timer s) (log s)).

(** [Math.round((currentFrame / FRAME_COUNT) * 100)] *)
Definition nativePercent (currentFrame : nat) : Z :=
  Math_round (inject_Z (Z.of_nat currentFrame)
              / inject_Z (Z.of_nat FRAME_COUNT) * 100).

(** The [try]/[catch] of [onseeked]: the colour it pushes for the outcome of
    [getImageData]. *)
Definition captured (frame : option ImageData) : Color :=
  match frame with
  | Some data => getAverageColor data
  | None => mkColor 0 0 0
  end.

Definition onseeked (frame : option ImageData) (s : Native) : Native :=
  let currentFrame' := S (currentFrame s) in
  mkNative (promise s) (started s) (duration s)
           (colors s ++ [captured frame])
           currentFrame' false true
           (log s ++ [Progress (nativePercent currentFrame')]).

Definition ontimeout (s : Native) : Native :=
  processFrame (mkNative (promise s) (started s) (duration s) (colors s)
                         (currentFrame s) (seeking s) false (log s)).

Definition dispatch (s : Native) (e : VideoEvent) : Native :=
  match promise s with
  | Pending =>
      match e with
      | EvError => onerror s
      | EvLoadedMetadata d => if started s then s else onloadedmetadata d s
      | EvSeeked frame => if seeking s then onseeked frame s else s
      | EvTimeout => if timer s then ontimeout s else s
      end
  | _ => s
  end.

Definition processVideoNative (events : list VideoEvent) : Native :=
  fold_left dispatch events initial.

(** The events of a video that loads with duration [d] and whose every seek
    completes; [frames] are the outcomes of the [getImageData] calls. *)
Definition playback (d : JSNumber) (frames : list (option ImageData))
  : list VideoEvent :=
  EvLoadedMetadata d :: flat_map (fun f => [EvSeeked f; EvTimeout]) frames.

(** ** processVideoFFmpeg

    A computation appends to the log and returns or throws. *)

Definition M (A : Type) : Type := (list Action * completion A)%type.

Definition ret {A} (a : A) : M A := ([], Normal a).

Definition bind {A B} (m : M A) (k : A -> M B) : M B :=
  match m with
  | (l, Normal a) => let '(l', res) := k a in (l ++ l', res)
  | (l, Throw e) => (l, Throw e)
  end.

Notation "x <- m ;; k" := (bind m (fun x => k))
  (at level 100, m at next level, right associativity).
Notation "m ;; k" := (bind m (fun _ => k))
  (at level 100, right associativity).

Definition emit (a : Action) : M unit := ([a], Normal tt).

Definition throw {A} (message : string) : M A := ([], Throw message).

(** An awaited call of the engine: it is logged, and it throws when the
    environment says so. *)
Definition engine (a : Action) (failure : option string) : M unit :=
  ([a], match failure with None => Normal tt | Some e => Throw e end).

(** An output file [out%03d.png], as the reading loop finds it. *)
Inductive FrameFile :=
| Missing                              (* readFile throws *)
| Corrupt                              (* createImageBitmap, drawImage or
                                          getImageData throws *)
| Image (data : ImageData) (deletes : bool).   (* deleteFile succeeds? *)

Record FFmpegEnv := mkFFmpegEnv {
  ff_loaded : bool;                (* ffmpeg && ffmpeg.loaded on entry *)
  ff_load : option string;         (* what ffmpeg.load() throws, if it does *)
  file_size : Z;                   (* videoFile.size *)
  confirmed : bool;                (* the answer to confirm(...) *)
  ff_write : option string;
  ff_probe : option string;
  probeLog : list string;          (* the 'log' messages during the probe *)
  ff_extract : option string;
  frameFile : nat -> FrameFile;
  ff_deleteInput : option string
}.

Definition digit (c : ascii) : option Z :=
  let n := Z.of_nat (nat_of_ascii c) in
  if ((48 <=? n) && (n <=? 57))%Z then Some (n - 48)%Z else None.

(** [\d{2}], read as a number *)
Definition twoDigits (c1 c2 : ascii) : option Z :=
  match digit c1, digit c2 with
  | Some d1, Some d2 => Some (10 * d1 + d2)%Z
  | _, _ => None
  end.

Fixpoint stripPrefix (p s : string) : option string :=
  match p, s with
  | EmptyString, _ => Some s
  | String a p', String c s' =>
      if Ascii.eqb a c then stripPrefix p' s' else None
  | _, _ => None
  end.

(** [/Duration: (\d{2}):(\d{2}):(\d{2}\.\d{2})/] anchored at the start of
    [s], with [hours * 3600 + minutes * 60 + seconds] as the result. *)
Definition durationAt (s : string) : option Q :=
  match stripPrefix "Duration: " s with
  | Some (String h1 (String h2 (String c1 (String m1 (String m2 (String c2
      (String s1 (String s2 (String c3 (String f1 (String f2 _))))))))))) =>
      if (Ascii.eqb c1 ":" && Ascii.eqb c2 ":" && Ascii.eqb c3 ".")%bool then
        match twoDigits h1 h2, twoDigits m1 m2, twoDigits s1 s2,
              twoDigits f1 f2 with
        | Some hours, Some minutes, Some secs, Some hundredths =>
            Some (inject_Z hours * 3600 + inject_Z minutes * 60
                  + (inject_Z secs + inject_Z hundredths / 100))
        | _, _, _, _ => None
        end
      else None
  | _ => None
  end.

(** [message.match(...)]: the leftmost match. *)
Fixpoint matchDuration (message : string) : option Q :=
  match durationAt message with
  | Some d => Some d
  | None =>
      match message with
      | EmptyString => None
      | String _ rest => matchDuration rest
      end
  end.

Definition logHandler (duration : Q) (message : string) : Q :=
  match matchDuration message with
  | Some d => d
  | None => duration
  end.

(** [Math.round(10 + (i / FRAME_COUNT) * 80)] *)
Definition fallbackPercent (i : nat) : Z :=
  Math_round (10 + inject_Z (Z.of_nat i) / inject_Z (Z.of_nat FRAME_COUNT) * 80).

(** The reading loop, from [i] on and for at most [n] more iterations. Any
    exception inside the [try] ends the loop; a colour pushed before it
    stays in the array. *)
Fixpoint readFrames (env : FFmpegEnv) (n i : nat) (colors : list Color)
  : M (list Color) :=
  match n with
  | O => ret colors
  | S n' =>
      match frameFile env i with
      | Missing => emit (ReadFile i) ;; ret colors
      | Corrupt => emit (ReadFile i) ;; ret colors
      | Image data deletes =>
          emit (ReadFile i) ;;
          let colors' := colors ++ [getAverageColor data] in
          emit (DeleteFile i) ;;
          if deletes then
            emit (Progress (fallbackPercent i)) ;;
            readFrames env n' (S i) colors'
          else ret colors'
      end
  end.

Definition GiB : Z := 1024 * 1024 * 1024.

Definition processVideoFFmpeg (env : FFmpegEnv) : M (list Color) :=
  emit (Progress 1) ;;
  (if ff_loaded env then ret tt else engine Load (ff_load env)) ;;
  (if (GiB <? file_size env)%Z then
     emit Confirm ;;
     if confirmed env then ret tt
     else throw "Processing cancelled by user due to file size."
   else ret tt) ;;
  engine WriteInput (ff_write env) ;;
  engine Probe (ff_probe env) ;;
  let duration := fold_left logHandler (probeLog env) 0 in
  let duration := if Qeq_bool duration 0 then 7200 else duration in
  let fps := inject_Z (Z.of_nat FRAME_COUNT) / duration in
  emit (Progress 10) ;;
  engine (Extract fps) (ff_extract env) ;;
  colors <- readFrames env (FRAME_COUNT + 10) 1 [] ;;
  engine DeleteInput (ff_deleteInput env) ;;
  emit (Progress 100) ;;
  ret colors.

(** ** processVideo *)

Definition includes (s sub : string) : bool :=
  match index 0 sub s with Some _ => true | None => false end.

(** The condition of the [catch] in [processVideo]. *)
Definition fallsBack (message : string) : bool :=
  negb (String.eqb message "")
  && (includes message "supported" || includes message "video duration"
      || includes message "format").

Definition processVideo (events : list VideoEvent) (env : FFmpegEnv)
  : list Action * Promise (list Color) :=
  let native := processVideoNative events in
  match promise native with
  | Pending => (log native, Pending)
  | Resolved colors => (log native, Resolved colors)
  | Rejected message =>
      if fallsBack message then
        let '(l, res) := processVideoFFmpeg env in
        (log native ++ l,
         match res with
         | Normal colors => Resolved colors
         | Throw e => Rejected e
         end)
      else (log native, Rejected message)
  end.


(** ** Invariants of the store model *)

(** A cluster of the store stands for a cluster value. *)
Definition represents (h : gmap positive Color) (cr : ClusterRef)
    (k : Cluster) : Prop :=
  h !! centerOf cr = Some (center k) /\ countOf cr = count k.

(** What holds of the store [h] and the cluster array while the loop runs
    from the store [h0]: the objects of [h0] are unchanged, the centres are
    distinct objects allocated since, and the array stands for the array of
    cluster values [pclusters]. *)
Definition storeInv (h0 h : gmap positive Color) (clusters : list ClusterRef)
    (pclusters : list Cluster) : Prop :=
  (forall l o, h0 !! l = Some o -> h !! l = Some o) /\
  Forall2 (represents h) clusters pclusters /\
  NoDup (centerOf <$> clusters) /\
  (forall l, l ∈ centerOf <$> clusters -> h0 !! l = None).


(** ** Invariants of the sampling loops *)

(** What holds of every state the native handlers can reach. *)
Record nativeInv (s : Native) : Prop := mkNativeInv {
  inv_length : length (colors s) = currentFrame s;
  inv_progress :
    progressOf (log s) = map nativePercent (seq 1 (currentFrame s));
  inv_bound : (currentFrame s <= FRAME_COUNT)%nat;
  inv_seeking : seeking s = true -> (currentFrame s < FRAME_COUNT)%nat;
  inv_exclusive : seeking s = true -> timer s = false;
  inv_idle :
    started s = false ->
    seeking s = false /\ timer s = false /\ currentFrame s = O /\
    seeksOf (log s) = [];
  inv_resolved :
    forall cs, promise s = Resolved cs ->
               cs = colors s /\ currentFrame s = FRAME_COUNT
}.

Definition nondecreasing (l : list Z) : Prop := Sorted Z.le l.

(** The engine wrote exactly the images [out001.png] to [out<k>.png], and
    each of them decodes and can be deleted. *)
Definition wroteFrames (env : FFmpegEnv) (k : nat) : Prop :=
  (forall i, (1 <= i <= k)%nat -> exists data, frameFile env i = Image data true) /\
  frameFile env (S k) = Missing.

(** Everything up to and including the probe succeeds. *)
Definition probes (env : FFmpegEnv) : Prop :=
  (ff_loaded env = true \/ ff_load env = None) /\
  ((file_size env <= GiB)%Z \/ confirmed env = true) /\
  ff_write env = None /\
  ff_probe env = None.

(** ** Sample inputs *)

(** Two pixels, (10, 20, 30) and (20, 30, 40). *)
Definition sampleImage : ImageData := [10; 20; 30; 255; 20; 30; 40; 255]%Z.

(** An engine whose calls all succeed, with the given probe output and
    output files. *)
Definition engineWith (probeLog : list string) (frameFile : nat -> FrameFile)
  : FFmpegEnv :=
  mkFFmpegEnv false None 1000 true None None probeLog None frameFile None.

(** [out001.png] to [out003.png]. *)
Definition threeFrames (i : nat) : FrameFile :=
  if ((1 <=? i) && (i <=? 3))%nat then Image sampleImage true else Missing.

(** [out001.png] to [out005.png], the third of which does not decode. *)
Definition corruptThird (i : nat) : FrameFile :=
  if (i =? 3)%nat then Corrupt
  else if ((1 <=? i) && (i <=? 5))%nat then Image sampleImage true
  else Missing.

Definition probeOutput : list string :=
  ["Input #0, matroska,webm, from 'input.mkv':";
   "  Duration: 00:01:30.50, start: 0.000000, bitrate: 1024 kb/s"]%string.

Definition probeOutputNoDuration : list string :=
  ["Input #0, matroska,webm, from 'input.mkv':";
   "  Duration: N/A, start: 0.000000, bitrate: N/A"]%string.

(** * Further definitions *)

(** ** Further notions about the clusters *)

(** The number of colours the clusters hold. *)
Definition members (clusters : list Cluster) : Z :=
  fold_right (fun k n => (count k + n)%Z) 0%Z clusters.

(** Every channel of the colour lies between [lo] and [hi]. *)
Definition channelsIn (lo hi : Q) (c : Color) : Prop :=
  (lo <= r c <= hi) /\ (lo <= g c <= hi) /\ (lo <= b c <= hi).

(** A colour as the sampling produces it: integer channels from 0 to 255. *)
Definition validColor (c : Color) : Prop :=
  exists zr zg zb,
    c = mkColor (inject_Z zr) (inject_Z zg) (inject_Z zb) /\
    (0 <= zr <= 255)%Z /\ (0 <= zg <= 255)%Z /\ (0 <= zb <= 255)%Z.

(** [k] is the cluster at index [i]: no cluster has a greater count, and
    the clusters created before it have a smaller one. *)
Definition firstWithMostMembers (clusters : list Cluster) (i : nat)
    (k : Cluster) : Prop :=
  nth_error clusters i = Some k /\
  (forall j k', nth_error clusters j = Some k' -> (count k' <= count k)%Z) /\
  (forall j k', (j < i)%nat -> nth_error clusters j = Some k' ->
                (count k' < count k)%Z).

(** [k] is the cluster at index [i]: no cluster has a smaller count, and
    the clusters created after it have a greater one. *)
Definition lastWithFewestMembers (clusters : list Cluster) (i : nat)
    (k : Cluster) : Prop :=
  nth_error clusters i = Some k /\
  (forall j k', nth_error clusters j = Some k' -> (count k <= count k')%Z) /\
  (forall j k', (i < j)%nat -> nth_error clusters j = Some k' ->
                (count k < count k')%Z).

(** ** Images as lists of pixels *)

(** A pixel: red, green, blue and alpha. *)
Definition Pixel : Type := (Z * Z * Z * Z)%type.

Definition red (p : Pixel) : Z := p.1.1.1.
Definition green (p : Pixel) : Z := p.1.1.2.
Definition blue (p : Pixel) : Z := p.1.2.
Definition alpha (p : Pixel) : Z := p.2.

(** The buffer of an image: the bytes of its pixels, one pixel after the
    other. *)
Definition imageOf (pixels : list Pixel) : ImageData :=
  flat_map (fun p => [red p; green p; blue p; alpha p]) pixels.

Definition isByte (z : Z) : Prop := (0 <= z <= 255)%Z.

(** ** rgbToHex and rgbToCss

    The channels are integers, as [Math.round] leaves them. *)

Definition ToInt32 (n : Z) : Z :=
  let m := (n mod 2 ^ 32)%Z in
  if (m <? 2 ^ 31)%Z then m else (m - 2 ^ 32)%Z.

(** [x << k] *)
Definition shiftLeft (x k : Z) : Z :=
  ToInt32 (Z.shiftl (ToInt32 x) (k mod 32)).

(** The digit of value [d] as [Number.prototype.toString] writes it. *)
Definition digitChar (d : Z) : ascii :=
  if (d <? 10)%Z then ascii_of_nat (48 + Z.to_nat d)
  else ascii_of_nat (87 + Z.to_nat d).

Fixpoint digits (radix : Z) (fuel : nat) (n : Z) : string :=
  match fuel with
  | O => EmptyString
  | S fuel' =>
      if (n <? radix)%Z then String (digitChar n) EmptyString
      else (digits radix fuel' (n / radix)
            ++ String (digitChar (n mod radix)) EmptyString)%string
  end.

(** [n.toString(radix)] for an integer [n]; a number has at most
    [log2 n + 1] digits. *)
Definition Number_toString (radix : Z) (n : Z) : string :=
  if (n <? 0)%Z
  then String "-" (digits radix (S (Z.to_nat (Z.log2 (- n)))) (- n))
  else digits radix (S (Z.to_nat (Z.log2 n))) n.

(** [s.slice(1)] *)
Definition slice1 (s : string) : string :=
  match s with
  | EmptyString => EmptyString
  | String _ rest => rest
  end.

Definition upperChar (c : ascii) : ascii :=
  let n := nat_of_ascii c in
  if ((97 <=? n) && (n <=? 122))%nat then ascii_of_nat (n - 32) else c.

(** [s.toUpperCase()], on ASCII *)
Fixpoint toUpperCase (s : string) : string :=
  match s with
  | EmptyString => EmptyString
  | String c rest => String (upperChar c) (toUpperCase rest)
  end.

(** [rgbToHex({ r, g, b })] *)
Definition rgbToHex (r g b : Z) : string :=
  String "#"
    (toUpperCase
       (slice1
          (Number_toString 16
             (shiftLeft 1 24 + shiftLeft r 16 + shiftLeft g 8 + b)%Z))).

(** [rgbToCss({ r, g, b })]: the template [rgb(${r}, ${g}, ${b})] *)
Definition rgbToCss (r g b : Z) : string :=
  ("rgb(" ++ Number_toString 10 r ++ ", " ++ Number_toString 10 g ++ ", "
   ++ Number_toString 10 b ++ ")")%string.

(** *** Reading a hexadecimal colour *)

(** Two upper-case hexadecimal digits. *)
Definition hexByte (z : Z) : string :=
  String (upperChar (digitChar (z / 16)))
    (String (upperChar (digitChar (z mod 16))) EmptyString).

Definition hexValue (c : ascii) : option Z :=
  let n := Z.of_nat (nat_of_ascii c) in
  if ((48 <=? n) && (n <=? 57))%Z then Some (n - 48)%Z
  else if ((65 <=? n) && (n <=? 70))%Z then Some (n - 55)%Z
  else None.

Definition hexPair (c1 c2 : ascii) : option Z :=
  match hexValue c1, hexValue c2 with
  | Some h, Some l => Some (16 * h + l)%Z
  | _, _ => None
  end.

(** The channels of [#RRGGBB]. *)
Definition parseHex (s : string) : option (Z * Z * Z) :=
  match s with
  | String "#" (String r1 (String r0 (String g1 (String g0
      (String b1 (String b0 EmptyString)))))) =>
      match hexPair r1 r0, hexPair g1 g0, hexPair b1 b0 with
      | Some r, Some g, Some b => Some (r, g, b)
      | _, _, _ => None
      end
  | _ => None
  end.

(** ** Further notions about the native path *)

(** The number of seeks requested so far. *)
Definition seeksRequested (s : Native) : nat :=
  if seeking s then S (currentFrame s) else currentFrame s.

(** The seeks requested so far target the frames 0, 1, 2, ... in this
    order. *)
Definition seekInv (s : Native) : Prop :=
  seeksOf (log s) = map (seekTime (duration s)) (seq 0 (seeksRequested s)).

(** A command of the FFmpeg engine, or the question before it. *)
Definition isEngineAction (a : Action) : bool :=
  match a with
  | Progress _ | Seek _ | Revoke => false
  | _ => true
  end.

Definition readsOf (log : list Action) : list nat :=
  flat_map (fun a => match a with ReadFile i => [i] | _ => [] end) log.

Definition deletesOf (log : list Action) : list nat :=
  flat_map (fun a => match a with DeleteFile i => [i] | _ => [] end) log.

(** ** The duration line of the probe *)

(** A number below 100 in two decimal digits. *)
Definition twoDigitString (n : Z) : string :=
  String (digitChar (n / 10)) (String (digitChar (n mod 10)) EmptyString).

(** [Duration: HH:MM:SS.cc], as the engine prints it. *)
Definition formatDuration (hours minutes secs hundredths : Z) : string :=
  ("Duration: " ++ twoDigitString hours ++ ":" ++ twoDigitString minutes
   ++ ":" ++ twoDigitString secs ++ "." ++ twoDigitString hundredths)%string.

(** The character [c] does not occur in [s]. *)
Fixpoint lacks (c : ascii) (s : string) : bool :=
  match s with
  | EmptyString => true
  | String a rest => negb (Ascii.eqb a c) && lacks c rest
  end.

(** The value of [duration] after the probe, and after the test that
    follows it. *)
Definition probedDuration (env : FFmpegEnv) : Q :=
  fold_left logHandler (probeLog env) 0.

Definition extractionDuration (env : FFmpegEnv) : Q :=
  if Qeq_bool (probedDuration env) 0 then 7200 else probedDuration env.

(** An engine that cannot be loaded. *)
Definition engineOffline : FFmpegEnv :=
  mkFFmpegEnv false (Some "failed to import ffmpeg-core.js"%string) 1000 true
              None None [] None (fun _ => Missing) None.

(** An engine given a file of 2 GiB, for which the user declines. *)
Definition engineDeclined : FFmpegEnv :=
  mkFFmpegEnv true None (2 * GiB) false None None probeOutput None threeFrames
              None.

(** ** File names *)

(** [s.split(c)] for a separator of one character: the pieces between the
    occurrences of [c], in order. *)
Fixpoint split (c : ascii) (s : string) : list string :=
  match s with
  | EmptyString => [EmptyString]
  | String a rest =>
      if Ascii.eqb a c then EmptyString :: split c rest
      else match split c rest with
           | piece :: pieces => String a piece :: pieces
           | [] => [String a EmptyString]
           end
  end.

(** [pieces.pop()]: the last piece, [undefined] for an empty array. *)
Fixpoint pop (pieces : list string) : option string :=
  match pieces with
  | [] => None
  | [piece] => Some piece
  | _ :: rest => pop rest
  end.

(** [x || d]: [undefined] and the empty string are falsy. *)
Definition orElse (x : option string) (d : string) : string :=
  match x with
  | Some (String a rest) => String a rest
  | _ => d
  end.

(** The name under which [processVideoFFmpeg] writes the file:
    ['input.' + (videoFile.name.split('.').pop() || 'mkv')] *)
Definition inputName (name : string) : string :=
  ("input." ++ orElse (pop (split "." name)) "mkv")%string.

(** [[^/.]*$] matches the whole of [s]. *)
Fixpoint plainToEnd (s : string) : bool :=
  match s with
  | EmptyString => true
  | String a rest =>
      negb (Ascii.eqb a "/") && negb (Ascii.eqb a ".") && plainToEnd rest
  end.

(** The regular expression [/\.[^/.]+$/] matches at the start of [s]. *)
Definition extensionAt (s : string) : bool :=
  match s with
  | String "." (String a rest) => plainToEnd (String a rest)
  | _ => false
  end.

(** [name.replace(/\.[^/.]+$/, "")]: the leftmost match, which ends the
    string, is removed. *)
Fixpoint stripExtension (name : string) : string :=
  if extensionAt name then EmptyString
  else match name with
       | EmptyString => EmptyString
       | String a rest => String a (stripExtension rest)
       end.

(** The name of the exported image, in [handleExport]. *)
Definition exportName (name : string) : string :=
  (stripExtension name ++ "_palette.png")%string.
(** * Properties *)

(** ** Numbers *)

Lemma Qlt_bool_iff (x y : Q) : Qlt_bool x y = true <-> x < y.
Proof.
  unfold Qlt_bool. rewrite negb_true_iff.
  split; intros H.
  - apply Qnot_le_lt. intros Hle. apply Qle_bool_iff in Hle. congruence.
  - destruct (Qle_bool y x) eqn:E; [|reflexivity].
    apply Qle_bool_iff in E. lra.
Qed.

Lemma Qlt_bool_false_iff (x y : Q) : Qlt_bool x y = false <-> y <= x.
Proof.
  unfold Qlt_bool. rewrite negb_false_iff. apply Qle_bool_iff.
Qed.

Lemma Qsqr_nonneg (x : Q) : 0 <= x * x.
Proof. nra. Qed.

Lemma Qpow2 (x : Q) : x ^ 2 = x * x.
Proof. reflexivity. Qed.

#[export] Instance Math_round_proper : Proper (Qeq ==> eq) Math_round.
Proof.
  intros x y Hxy. unfold Math_round. apply Qfloor_comp. rewrite Hxy. reflexivity.
Qed.

Lemma Math_round_mono (x y : Q) : x <= y -> (Math_round x <= Math_round y)%Z.
Proof.
  intros H. unfold Math_round. apply Qfloor_resp_le. lra.
Qed.

(** [Math.round] returns a nearest integer. *)
Lemma Math_round_nearest (x : Q) : nearestInteger x (Math_round x).
Proof.
  unfold nearestInteger, Math_round.
  pose proof (Qfloor_le (x + (1#2))) as Hlo.
  pose proof (Qlt_floor (x + (1#2))) as Hhi.
  rewrite inject_Z_plus in Hhi. change (inject_Z 1) with 1 in Hhi.
  apply Qabs_Qle_condition. split; lra.
Qed.

Lemma len_pos {A} (l : list A) : l <> [] -> 0 < len l.
Proof.
  intros H. unfold len. destruct l as [|a l]; [congruence|].
  change 0 with (inject_Z 0). rewrite <- Zlt_Qlt. simpl length. lia.
Qed.

Lemma len_app_one {A} (l : list A) (a : A) : len (l ++ [a]) == len l + 1.
Proof.
  unfold len. rewrite length_app. simpl length.
  rewrite Nat2Z.inj_add, inject_Z_plus. reflexivity.
Qed.

(** ** The distance test *)

Lemma sqdist_nonneg c1 c2 : 0 <= sqdist c1 c2.
Proof.
  unfold sqdist. rewrite !Qpow2.
  pose proof (Qsqr_nonneg (r c1 - r c2)).
  pose proof (Qsqr_nonneg (g c1 - g c2)).
  pose proof (Qsqr_nonneg (b c1 - b c2)). lra.
Qed.

(** The test on the squares decides [colorDistance(c1, c2) < t]. *)
Lemma colorDistance_lt_spec c1 c2 t :
  0 <= t ->
  colorDistance_lt c1 c2 t = true <-> (colorDistance c1 c2 < Q2R t)%R.
Proof.
  intros Ht. unfold colorDistance_lt, colorDistance.
  rewrite Qlt_bool_iff.
  pose proof (sqdist_nonneg c1 c2) as Hd.
  apply Qle_Rle in Hd, Ht. rewrite RMicromega.Q2R_0 in Hd, Ht.
  assert (Hsq : (Q2R (t * t) = Q2R t * Q2R t)%R) by apply Q2R_mult.
  split; intros H.
  - apply Qlt_Rlt in H. rewrite Hsq in H.
    rewrite <- (sqrt_square (Q2R t)) by exact Ht.
    apply sqrt_lt_1_alt. split; assumption.
  - apply Rlt_Qlt. rewrite Hsq.
    apply sqrt_lt_0_alt. rewrite sqrt_square by exact Ht. exact H.
Qed.

Lemma within_iff c1 c2 :
  colorDistance_lt c1 c2 THRESHOLD = true <-> sqdist c1 c2 < 900.
Proof.
  unfold colorDistance_lt. rewrite Qlt_bool_iff.
  change (THRESHOLD * THRESHOLD) with (900 # 1). reflexivity.
Qed.

(** ** The running totals *)

Lemma totals_fold colors tR tG tB :
  let t := fold_left (fun '(totalR, totalG, totalB) c =>
                        (totalR + r c, totalG + g c, totalB + b c))
                     colors (tR, tG, tB) in
  t.1.1 == tR + Qsum (map r colors) /\
  t.1.2 == tG + Qsum (map g colors) /\
  t.2 == tB + Qsum (map b colors).
Proof.
  revert tR tG tB. induction colors as [|c colors IH]; intros tR tG tB.
  - simpl. repeat split; lra.
  - simpl fold_left. specialize (IH (tR + r c) (tG + g c) (tB + b c)).
    simpl in IH |- *. destruct IH as (Hr & Hg & Hb).
    rewrite Hr, Hg, Hb. repeat split; lra.
Qed.

Lemma totals_sums colors :
  (totals colors).1.1 == Qsum (map r colors) /\
  (totals colors).1.2 == Qsum (map g colors) /\
  (totals colors).2 == Qsum (map b colors).
Proof.
  destruct (totals_fold colors 0 0 0) as (Hr & Hg & Hb).
  unfold totals. rewrite Hr, Hg, Hb. repeat split; lra.
Qed.

(** ** The cluster array *)

Lemma scanClusters_length color clusters clusters' :
  scanClusters color clusters = Some clusters' ->
  length clusters' = length clusters.
Proof.
  revert clusters'. induction clusters as [|k rest IH]; intros clusters' H.
  - discriminate.
  - simpl in H. destruct (colorDistance_lt color (center k) THRESHOLD).
    + inversion H; subst. reflexivity.
    + destruct (scanClusters color rest) as [rest'|]; [|discriminate].
      inversion H; subst. simpl. f_equal. apply IH. reflexivity.
Qed.

Lemma addColor_length clusters color :
  (length clusters <= length (addColor clusters color))%nat.
Proof.
  unfold addColor. destruct (scanClusters color clusters) as [cs|] eqn:E.
  - apply scanClusters_length in E. lia.
  - rewrite length_app. lia.
Qed.

Lemma addColor_nonempty clusters color : addColor clusters color <> [].
Proof.
  unfold addColor. destruct (scanClusters color clusters) as [cs|] eqn:E.
  - destruct clusters as [|k rest]; [discriminate|].
    apply scanClusters_length in E. destruct cs; [discriminate|congruence].
  - destruct clusters; discriminate.
Qed.

Lemma fold_addColor_length colors clusters :
  (length clusters <= length (fold_left addColor colors clusters))%nat.
Proof.
  revert clusters. induction colors as [|c colors IH]; intros clusters.
  - simpl. lia.
  - simpl. pose proof (addColor_length clusters c).
    specialize (IH (addColor clusters c)). lia.
Qed.

Lemma buildClusters_nonempty colors : colors <> [] -> buildClusters colors <> [].
Proof.
  destruct colors as [|c colors]; [congruence|]. intros _.
  unfold buildClusters. simpl.
  pose proof (fold_addColor_length colors (addColor [] c)) as H.
  pose proof (addColor_nonempty [] c) as Hne.
  destruct (addColor [] c); [congruence|].
  destruct (fold_left addColor colors (c0 :: l)); [simpl in H; lia|discriminate].
Qed.

(** ** Sorting by count *)

Section SortFacts.
Context {A : Type} (cnt : A -> Z).

Lemma insertByCount_In x y l :
  In y (insertByCount cnt x l) <-> y = x \/ In y l.
Proof.
  induction l as [|z l IH]; simpl.
  - intuition congruence.
  - destruct (cnt z <=? cnt x)%Z; simpl; [intuition congruence|].
    rewrite IH. intuition congruence.
Qed.

Lemma sortByCount_In y l : In y (sortByCount cnt l) <-> In y l.
Proof.
  induction l as [|x l IH]; simpl; [reflexivity|].
  rewrite insertByCount_In, IH. intuition congruence.
Qed.

Lemma insertByCount_sorted x l :
  StronglySorted (descending cnt) l ->
  StronglySorted (descending cnt) (insertByCount cnt x l).
Proof.
  induction 1 as [|z l Hl IH Hz]; simpl.
  - repeat constructor.
  - destruct (cnt z <=? cnt x)%Z eqn:E.
    + apply Z.leb_le in E. constructor; [constructor; assumption|].
      constructor; [unfold descending; lia|].
      rewrite List.Forall_forall in Hz |- *. intros y Hy.
      specialize (Hz y Hy). unfold descending in *. lia.
    + apply Z.leb_gt in E. constructor; [assumption|].
      rewrite List.Forall_forall in Hz |- *. intros y Hy.
      apply insertByCount_In in Hy.
    destruct Hy as [->|Hy]; [unfold descending; lia|].
      apply Hz, Hy.
Qed.

Lemma sortByCount_sorted l : StronglySorted (descending cnt) (sortByCount cnt l).
Proof.
  induction l as [|x l IH]; simpl; [constructor|].
  apply insertByCount_sorted, IH.
Qed.

Lemma sorted_head_max x l :
  StronglySorted (descending cnt) (x :: l) ->
  forall y, In y (x :: l) -> (cnt y <= cnt x)%Z.
Proof.
  intros H y [->|Hy]; [lia|].
  apply StronglySorted_inv in H. destruct H as [_ H].
  rewrite List.Forall_forall in H. apply H, Hy.
Qed.

Lemma sorted_last_min l d :
  StronglySorted (descending cnt) l ->
  forall y, In y l -> (cnt (List.last l d) <= cnt y)%Z.
Proof.
  induction 1 as [|x l Hl IH Hx]; intros y Hy; [destruct Hy|].
  destruct l as [|z l].
  - destruct Hy as [->|[]]. simpl. lia.
  - change (List.last (x :: z :: l) d) with (List.last (z :: l) d).
    destruct Hy as [->|Hy]; [|apply IH, Hy].
    rewrite List.Forall_forall in Hx. apply (Hx (List.last (z :: l) d)).
    destruct (@exists_last _ (z :: l)) as (l' & a & E); [discriminate|].
    rewrite E, last_last. apply in_or_app. right. left. reflexivity.
Qed.

Lemma last_In (l : list A) d : l <> [] -> In (List.last l d) l.
Proof.
  intros H. destruct (@exists_last _ l H) as (l' & a & E).
  rewrite E, last_last. apply in_or_app. right. left. reflexivity.
Qed.

Lemma sortByCount_nonempty l : l <> [] -> sortByCount cnt l <> [].
Proof.
  intros H E. destruct l as [|x l]; [congruence|].
  assert (Hin : In x (sortByCount cnt (x :: l))).
  { apply sortByCount_In. left. reflexivity. }
  rewrite E in Hin. destruct Hin.
Qed.
End SortFacts.

(** The shape of the value [analyzeColors] returns on a non-empty array. *)
Lemma analyzeColors_nonempty colors :
  colors <> [] ->
  exists first rest,
    sortByCount count (buildClusters colors) = first :: rest /\
    analyzeColors colors =
      Normal (Some (mkResult
        (rounded ((totals colors).1.1 / len colors)
                 ((totals colors).1.2 / len colors)
                 ((totals colors).2 / len colors))
        (rounded (r (center first)) (g (center first)) (b (center first)))
        (let k := List.last (first :: rest) first in
         rounded (r (center k)) (g (center k)) (b (center k))))).
Proof.
  intros Hne.
  pose proof (sortByCount_nonempty count _ (buildClusters_nonempty _ Hne)) as Hs.
  destruct (sortByCount count (buildClusters colors)) as [|first rest] eqn:E;
    [congruence|].
  exists first, rest. split; [reflexivity|].
  unfold analyzeColors. destruct colors as [|c colors]; [congruence|].
  destruct (totals (c :: colors)) as [[tR tG] tB]. rewrite E. reflexivity.
Qed.

(** C7. For every non-empty colour sequence, [analyzeColors] returns an
    [average] whose channels are the arithmetic means of the entries' [r],
    [g] and [b] channels, each rounded by [Math.round], which yields an
    integer nearest to the mean. *)
Theorem analyzeColors_average (colors : list Color) :
  colors <> [] ->
  exists res,
    analyzeColors colors = Normal (Some res) /\
    average res = rounded (mean (map r colors)) (mean (map g colors))
                          (mean (map b colors)) /\
    nearestInteger (mean (map r colors)) (Math_round (mean (map r colors))) /\
    nearestInteger (mean (map g colors)) (Math_round (mean (map g colors))) /\
    nearestInteger (mean (map b colors)) (Math_round (mean (map b colors))).
Proof.
  intros Hne.
  destruct (analyzeColors_nonempty colors Hne) as (first & rest & _ & Hres).
  eexists. split; [exact Hres|]. split.
  - simpl. destruct (totals_sums colors) as (Hr & Hg & Hb).
    unfold rounded, mean. unfold len at 4 5 6. rewrite !length_map.
    fold (len colors). rewrite Hr, Hg, Hb. reflexivity.
  - repeat split; apply Math_round_nearest.
Qed.

Lemma analyzeColors_average_witness :
  exists res,
    analyzeColors [mkColor 1 2 3; mkColor 2 2 5] = Normal (Some res) /\
    average res = mkColor 2 2 4.
Proof.
  destruct (analyzeColors_average [mkColor 1 2 3; mkColor 2 2 5])
    as (res & Hres & Havg & _); [discriminate|].
  exists res. split; [exact Hres|]. rewrite Havg. reflexivity.
Defined.

(** C6. For every non-empty colour sequence, [dominant] is the rounded
    centre of a cluster whose count is at least every cluster's count, and
    [least] is the rounded centre of a cluster whose count is at most every
    cluster's count. *)
Theorem analyzeColors_dominant_least (colors : list Color) :
  colors <> [] ->
  exists res kd kl,
    analyzeColors colors = Normal (Some res) /\
    In kd (buildClusters colors) /\
    In kl (buildClusters colors) /\
    (forall k, In k (buildClusters colors) -> (count k <= count kd)%Z) /\
    (forall k, In k (buildClusters colors) -> (count kl <= count k)%Z) /\
    dominant res = rounded (r (center kd)) (g (center kd)) (b (center kd)) /\
    least res = rounded (r (center kl)) (g (center kl)) (b (center kl)).
Proof.
  intros Hne.
  destruct (analyzeColors_nonempty colors Hne) as (first & rest & Hs & Hres).
  pose proof (sortByCount_sorted count (buildClusters colors)) as Hsorted.
  rewrite Hs in Hsorted.
  exists (mkResult
    (rounded ((totals colors).1.1 / len colors)
             ((totals colors).1.2 / len colors)
             ((totals colors).2 / len colors))
    (rounded (r (center first)) (g (center first)) (b (center first)))
    (let k := List.last (first :: rest) first in
     rounded (r (center k)) (g (center k)) (b (center k)))),
    first, (List.last (first :: rest) first).
  split; [exact Hres|].
  assert (Hin : forall k, In k (buildClusters colors) <-> In k (first :: rest)).
  { intros k. rewrite <- Hs. symmetry. apply sortByCount_In. }
  repeat split.
  - apply Hin. left. reflexivity.
  - apply Hin. apply last_In. discriminate.
  - intros k Hk. apply (sorted_head_max count first rest Hsorted). apply Hin, Hk.
  - intros k Hk. apply (sorted_last_min count _ first Hsorted). apply Hin, Hk.
Qed.

Lemma analyzeColors_dominant_least_witness :
  exists res,
    analyzeColors [mkColor 0 0 0; mkColor 200 0 0; mkColor 201 0 0]
    = Normal (Some res).
Proof.
  destruct (analyzeColors_dominant_least
              [mkColor 0 0 0; mkColor 200 0 0; mkColor 201 0 0])
    as (res & kd & kl & Hres & _); [discriminate|].
  exists res. exact Hres.
Defined.

(** ** First fit with an incremental mean *)

Lemma Color_equiv_refl c : Color_equiv c c.
Proof. repeat split; reflexivity. Qed.

Lemma Cluster_equiv_refl k : Cluster_equiv k k.
Proof. split; [apply Color_equiv_refl | reflexivity]. Qed.

Lemma sqdist_equiv x c c' : Color_equiv c c' -> sqdist x c == sqdist x c'.
Proof.
  intros (Hr & Hg & Hb). unfold sqdist. rewrite Hr, Hg, Hb. reflexivity.
Qed.

Lemma colorDistance_lt_equiv x c c' t :
  Color_equiv c c' -> colorDistance_lt x c t = colorDistance_lt x c' t.
Proof.
  intros H. unfold colorDistance_lt, Qlt_bool.
  rewrite (sqdist_equiv x c c' H). reflexivity.
Qed.

(** The centre update of the code is the incremental mean of the
    specification. *)
Lemma absorb_incrementalMean k k' color :
  Cluster_equiv k k' -> (1 <= count k)%Z ->
  Cluster_equiv (absorb k color)
    (mkCluster (incrementalMean (center k') color (count k' + 1))
               (count k' + 1)).
Proof.
  intros [(Hr & Hg & Hb) Hc] Hk. rewrite <- Hc.
  assert (Hn : ~ inject_Z (count k) + 1 == 0).
  { assert (0 < inject_Z (count k)); [|lra].
    change 0 with (inject_Z 0). rewrite <- Zlt_Qlt. lia. }
  split; [|reflexivity].
  unfold Color_equiv, absorb, incrementalMean; cbn [center r g b count].
  rewrite Z.add_simpl_r, inject_Z_plus. change (inject_Z 1) with 1.
  repeat split;
    [rewrite <- Hr | rewrite <- Hg | rewrite <- Hb]; field; exact Hn.
Qed.

Lemma scanClusters_firstFit color clusters clusters' :
  Forall2 Cluster_equiv clusters clusters' ->
  Forall (fun k => (1 <= count k)%Z) clusters ->
  match scanClusters color clusters, firstFit color clusters' with
  | Some cs, Some i =>
      exists k', clusters' !! i = Some k' /\
        Forall2 Cluster_equiv cs
          (<[i := mkCluster (incrementalMean (center k') color (count k' + 1))
                            (count k' + 1)]> clusters')
  | None, None => True
  | _, _ => False
  end.
Proof.
  induction 1 as [|k k' rest rest' Hk Hrest IH]; intros Hcount; simpl.
  - exact I.
  - apply Forall_cons_1 in Hcount. destruct Hcount as [Hk1 Hcount].
    rewrite <- (colorDistance_lt_equiv color (center k) (center k'))
      by apply Hk.
    destruct (colorDistance_lt color (center k) THRESHOLD).
    + exists k'. split; [reflexivity|]. simpl. constructor; [|exact Hrest].
      apply absorb_incrementalMean; assumption.
    + specialize (IH Hcount).
      destruct (scanClusters color rest) as [cs|],
               (firstFit color rest') as [i|]; simpl; try exact IH.
      destruct IH as (k2 & Hlook & Heq).
      exists k2. split; [exact Hlook|]. constructor; assumption.
Qed.

Lemma scanClusters_count color clusters cs :
  scanClusters color clusters = Some cs ->
  Forall (fun k => (1 <= count k)%Z) clusters ->
  Forall (fun k => (1 <= count k)%Z) cs.
Proof.
  revert cs. induction clusters as [|k rest IH]; intros cs H Hc; [discriminate|].
  apply Forall_cons_1 in Hc. destruct Hc as [Hk Hc]. simpl in H.
  destruct (colorDistance_lt color (center k) THRESHOLD).
  - inversion H; subst. constructor; [simpl; lia | exact Hc].
  - destruct (scanClusters color rest) as [rest'|]; [|discriminate].
    inversion H; subst. constructor; [exact Hk|]. apply IH; auto.
Qed.

Lemma addColor_count clusters color :
  Forall (fun k => (1 <= count k)%Z) clusters ->
  Forall (fun k => (1 <= count k)%Z) (addColor clusters color).
Proof.
  intros Hc. unfold addColor.
  destruct (scanClusters color clusters) as [cs|] eqn:E.
  - eapply scanClusters_count; eassumption.
  - apply Forall_app. split; [exact Hc|]. repeat constructor. simpl. lia.
Qed.

Lemma addColor_assignSpec clusters clusters' color :
  Forall2 Cluster_equiv clusters clusters' ->
  Forall (fun k => (1 <= count k)%Z) clusters ->
  Forall2 Cluster_equiv (addColor clusters color) (assignSpec clusters' color).
Proof.
  intros Heq Hc.
  pose proof (scanClusters_firstFit color clusters clusters' Heq Hc) as H.
  unfold addColor, assignSpec.
  destruct (scanClusters color clusters) as [cs|],
           (firstFit color clusters') as [i|]; try contradiction.
  - destruct H as (k' & Hlook & H). rewrite Hlook. exact H.
  - apply Forall2_app; [exact Heq|]. repeat constructor; simpl; reflexivity.
Qed.

Lemma fold_addColor_assignSpec colors clusters clusters' :
  Forall2 Cluster_equiv clusters clusters' ->
  Forall (fun k => (1 <= count k)%Z) clusters ->
  Forall2 Cluster_equiv (fold_left addColor colors clusters)
                        (fold_left assignSpec colors clusters').
Proof.
  revert clusters clusters'.
  induction colors as [|c colors IH]; intros clusters clusters' Heq Hc; simpl.
  - exact Heq.
  - apply IH; [apply addColor_assignSpec; assumption | apply addColor_count, Hc].
Qed.


(** ** A sequence that fits one ball *)

(** Moving a centre towards a colour by the running mean keeps it at least
    as close to [x] as the farther of the two (channel by channel). *)
Lemma mean_step_convex (m c x n m' : Q) :
  1 <= n -> m' == (m * (n - 1) + c) / n ->
  n * (x - m') ^ 2 <= (n - 1) * (x - m) ^ 2 + (x - c) ^ 2.
Proof.
  intros Hn Hm.
  assert (Hn0 : ~ n == 0) by lra.
  assert (E : n * m' == m * (n - 1) + c) by (rewrite Hm; field; exact Hn0).
  assert (Hsq : 0 <= (n - 1) * (((x - m) - (x - c)) * ((x - m) - (x - c)))).
  { apply Qmult_le_0_compat; [lra | apply Qsqr_nonneg]. }
  assert (Hid : n * ((n - 1) * (x - m) ^ 2 + (x - c) ^ 2)
                - ((n - 1) * (x - m) + (x - c)) ^ 2
                == (n - 1) * (((x - m) - (x - c)) * ((x - m) - (x - c))))
    by ring.
  assert (Hnn : n * (n * (x - m') ^ 2)
                <= n * ((n - 1) * (x - m) ^ 2 + (x - c) ^ 2)).
  { setoid_replace (n * (n * (x - m') ^ 2))
      with (((n - 1) * (x - m) + (x - c)) ^ 2) using relation Qeq; [lra|].
    setoid_replace ((n - 1) * (x - m) + (x - c)) with (n * x - n * m')
      using relation Qeq by (rewrite E; ring).
    ring. }
  apply Qmult_le_l in Hnn; [exact Hnn | lra].
Qed.

Lemma inject_Z_succ (z : Z) : inject_Z (z + 1) == inject_Z z + 1.
Proof. rewrite inject_Z_plus. reflexivity. Qed.

Lemma absorb_within k color x :
  (1 <= count k)%Z ->
  sqdist x (center k) < 900 -> sqdist x color < 900 ->
  sqdist x (center (absorb k color)) < 900.
Proof.
  intros Hk Hm Hc.
  set (n := inject_Z (count k + 1)).
  assert (Hn : 2 <= n).
  { unfold n. rewrite inject_Z_succ.
    assert (1 <= inject_Z (count k)); [|lra].
    change 1 with (inject_Z 1). rewrite <- Zle_Qle. exact Hk. }
  assert (Hn1 : inject_Z (count k + 1 - 1) == n - 1).
  { unfold n. rewrite Z.add_simpl_r, inject_Z_succ. ring. }
  assert (Hch : forall m c v, 
            n * (v - (m * inject_Z (count k + 1 - 1) + c) / n) ^ 2
            <= (n - 1) * (v - m) ^ 2 + (v - c) ^ 2).
  { intros m c v. apply mean_step_convex; [lra|]. rewrite Hn1. reflexivity. }
  pose proof (Hch (r (center k)) (r color) (r x)) as Hr.
  pose proof (Hch (g (center k)) (g color) (g x)) as Hg.
  pose proof (Hch (b (center k)) (b color) (b x)) as Hb.
  assert (Hsum : n * sqdist x (center (absorb k color))
                 <= (n - 1) * sqdist x (center k) + sqdist x color).
  { unfold sqdist, absorb; cbn [center r g b]. fold n.
    rewrite !Qmult_plus_distr_r. lra. }
  assert (Hm' : (n - 1) * sqdist x (center k) <= (n - 1) * 900).
  { apply Qmult_le_l; lra. }
  assert (Hlt : n * sqdist x (center (absorb k color)) < n * 900) by lra.
  apply Qmult_lt_l in Hlt; [exact Hlt | lra].
Qed.

Lemma absorb_total k color (f : Color -> Q) (total : Q) :
  (f = r \/ f = g \/ f = b) ->
  (1 <= count k)%Z ->
  f (center k) * inject_Z (count k) == total ->
  f (center (absorb k color)) * inject_Z (count (absorb k color))
  == total + f color.
Proof.
  intros Hf Hk Ht.
  assert (Hn : ~ inject_Z (count k) + 1 == 0).
  { assert (0 < inject_Z (count k)); [|lra].
    change 0 with (inject_Z 0). rewrite <- Zlt_Qlt. lia. }
  rewrite <- Ht.
  destruct Hf as [-> | [-> | ->]]; unfold absorb; cbn [center count r g b];
    rewrite Z.add_simpl_r, inject_Z_succ; field; exact Hn.
Qed.

Lemma Qsum_app_one (l : list Q) (x : Q) : Qsum (l ++ [x]) == Qsum l + x.
Proof.
  induction l as [|y l IH]; simpl; [lra|]. rewrite IH. lra.
Qed.

Lemma single_cluster_fold rest : forall seen k,
  (1 <= count k)%Z ->
  count k = Z.of_nat (length seen) ->
  (forall f, f = r \/ f = g \/ f = b ->
             f (center k) * inject_Z (count k) == Qsum (map f seen)) ->
  (forall x, (forall c, In c seen -> sqdist x c < 900) ->
             sqdist x (center k) < 900) ->
  (forall x c, In x rest -> In c (seen ++ rest) -> sqdist x c < 900) ->
  exists k',
    fold_left addColor rest [k] = [k'] /\
    (1 <= count k')%Z /\
    count k' = Z.of_nat (length (seen ++ rest)) /\
    (forall f, f = r \/ f = g \/ f = b ->
               f (center k') * inject_Z (count k') == Qsum (map f (seen ++ rest))).
Proof.
  induction rest as [|x rest IH]; intros seen k Hk Hcount Hsum Hball Hpair.
  - exists k. rewrite app_nil_r. simpl. auto.
  - assert (Hx : sqdist x (center k) < 900).
    { apply Hball. intros c Hc. apply Hpair; [left; reflexivity|].
      apply in_or_app. left. exact Hc. }
    assert (Hstep : addColor [k] x = [absorb k x]).
    { unfold addColor. simpl.
      apply within_iff in Hx. rewrite Hx. reflexivity. }
    simpl fold_left. rewrite Hstep.
    destruct (IH (seen ++ [x]) (absorb k x)) as (k' & Hfold & Hk' & Hc' & Hs').
    + simpl. lia.
    + simpl. rewrite Hcount, length_app. simpl. lia.
    + intros f Hf. rewrite map_app. simpl map. rewrite Qsum_app_one.
      apply absorb_total; auto.
    + intros y Hy. apply absorb_within; [exact Hk | |].
      * apply Hball. intros c Hc. apply Hy, in_or_app. left. exact Hc.
      * apply Hy, in_or_app. right. left. reflexivity.
    + intros y c Hy Hc. apply Hpair; [right; exact Hy|].
      rewrite <- app_assoc in Hc. exact Hc.
    + exists k'. rewrite <- app_assoc in Hc', Hs'. auto.
Qed.

Lemma pairwiseWithin_spec colors :
  pairwiseWithin colors = true ->
  forall x c, In x colors -> In c colors -> sqdist x c < 900.
Proof.
  intros H x c Hx Hc. unfold pairwiseWithin in H.
  rewrite forallb_forall in H. specialize (H x Hx).
  rewrite forallb_forall in H. apply within_iff, H, Hc.
Qed.

(** On a sequence whose colours are pairwise closer than the threshold the
    cluster array has one element, which counts every colour and whose
    centre is the mean. *)
Lemma buildClusters_single colors :
  colors <> [] -> pairwiseWithin colors = true ->
  exists k,
    buildClusters colors = [k] /\
    count k = Z.of_nat (length colors) /\
    (forall f, f = r \/ f = g \/ f = b -> f (center k) == mean (map f colors)).
Proof.
  intros Hne Hpw. pose proof (pairwiseWithin_spec colors Hpw) as Hpair.
  destruct colors as [|c0 rest]; [congruence|].
  destruct (single_cluster_fold rest [c0] (mkCluster c0 1))
    as (k & Hfold & Hk & Hc & Hs).
  - simpl. lia.
  - reflexivity.
  - intros f _. unfold Qsum. cbn [map fold_right count center].
    change (inject_Z 1) with 1. ring.
  - intros x Hx. apply Hx. left. reflexivity.
  - intros x c Hx Hc. apply Hpair; [right; exact Hx | exact Hc].
  - exists k. split; [exact Hfold|]. split; [exact Hc|].
    intros f Hf. specialize (Hs f Hf). unfold mean, len.
    rewrite length_map. change ([c0] ++ rest) with (c0 :: rest) in *.
    rewrite <- Hc, <- Hs.
    field. assert (0 < inject_Z (count k)); [|lra].
    change 0 with (inject_Z 0). rewrite <- Zlt_Qlt. lia.
Qed.



(** ** The store model: the input is not mutated *)

Lemma updateCenter_eq f n centre color (h : gmap positive Color) c v :
  h !! centre = Some c -> h !! color = Some v ->
  updateCenter f n centre color h
  = Some (<[centre := setField f ((getField f c * inject_Z (n - 1) + getField f v)
                                  / inject_Z n) c]> h).
Proof.
  intros Hc Hv. unfold updateCenter, read, write. rewrite Hc, Hv. reflexivity.
Qed.

Lemma absorb_store {A} (h : gmap positive Color) centre color c v n
    (K : gmap positive Color -> option A) :
  h !! centre = Some c -> h !! color = Some v -> color <> centre ->
  (h1 ← updateCenter field_r (n + 1) centre color h;
   h2 ← updateCenter field_g (n + 1) centre color h1;
   h3 ← updateCenter field_b (n + 1) centre color h2;
   K h3)
  = K (<[centre := center (absorb (mkCluster c n) v)]> h).
Proof.
  intros Hc Hv Hne.
  rewrite (updateCenter_eq _ _ _ _ _ c v Hc Hv). simpl.
  set (c1 := mkColor _ (g c) (b c)).
  rewrite (updateCenter_eq field_g _ centre color _ c1 v)
    by (by simplify_map_eq). simpl.
  set (c2 := mkColor _ _ (b c)).
  rewrite (updateCenter_eq field_b _ centre color _ c2 v)
    by (by simplify_map_eq). simpl.
  rewrite !insert_insert_eq. reflexivity.
Qed.

Lemma represents_frame (h h' : gmap positive Color) cr k :
  h' !! centerOf cr = h !! centerOf cr -> represents h cr k -> represents h' cr k.
Proof. intros E [H1 H2]. split; congruence. Qed.

Lemma represents_elem (h : gmap positive Color) clusters pclusters cr :
  Forall2 (represents h) clusters pclusters -> cr ∈ clusters ->
  is_Some (h !! centerOf cr).
Proof.
  induction 1 as [|cr' k cs ks [Hc _] _ IH]; intros Hin.
  - by apply elem_of_nil in Hin.
  - apply elem_of_cons in Hin as [->|Hin]; [eauto | auto].
Qed.

Lemma Forall2_represents_frame (h h' : gmap positive Color) clusters pclusters :
  (forall l, l ∈ centerOf <$> clusters -> h' !! l = h !! l) ->
  Forall2 (represents h) clusters pclusters ->
  Forall2 (represents h') clusters pclusters.
Proof.
  intros Hframe Hrep. induction Hrep as [|cr k cs ks Hr _ IH]; constructor.
  - apply (represents_frame h); [|exact Hr]. apply Hframe. rewrite fmap_cons. left.
  - apply IH. intros l Hl. apply Hframe. rewrite fmap_cons. by right.
Qed.

Lemma scanClustersH_refines (h : gmap positive Color) color v clusters pclusters :
  h !! color = Some v ->
  Forall2 (represents h) clusters pclusters ->
  NoDup (centerOf <$> clusters) ->
  color ∉ centerOf <$> clusters ->
  match scanClusters v pclusters with
  | Some pcs' =>
      exists h' cs',
        scanClustersH h color clusters = Some (Some (h', cs')) /\
        Forall2 (represents h') cs' pcs' /\
        centerOf <$> cs' = centerOf <$> clusters /\
        (forall l, l ∉ centerOf <$> clusters -> h' !! l = h !! l)
  | None => scanClustersH h color clusters = Some None
  end.
Proof.
  intros Hv Hrep. induction Hrep as [|cr k clusters pclusters [Hc Hn] Hrest IH];
    intros Hnodup Hfresh.
  - reflexivity.
  - rewrite fmap_cons in Hnodup, Hfresh.
    apply NoDup_cons in Hnodup as [Hcr Hnodup].
    apply not_elem_of_cons in Hfresh as [Hne Hfresh].
    cbn [scanClusters scanClustersH]. rewrite Hv, Hc. simpl.
    destruct (colorDistance_lt v (center k) THRESHOLD).
    + rewrite (absorb_store h (centerOf cr) color (center k) v (countOf cr) _
                 Hc Hv Hne).
      simpl. eexists _, _. split; [reflexivity|]. split; [|split].
      * constructor.
        -- split; simpl; [rewrite lookup_insert_eq, Hn; destruct k; reflexivity
                         | rewrite Hn; reflexivity].
        -- apply (Forall2_represents_frame h); [|exact Hrest].
           intros l Hl. rewrite lookup_insert_ne; [reflexivity|].
           intros <-. contradiction.
      * reflexivity.
      * intros l Hl. rewrite ?fmap_cons in Hl.
        apply not_elem_of_cons in Hl as [Hl _].
        by rewrite lookup_insert_ne.
    + specialize (IH Hnodup Hfresh).
      destruct (scanClusters v pclusters) as [pcs'|].
      * destruct IH as (h' & cs' & E & Hrep' & Hmap & Hframe).
        rewrite E. simpl. eexists _, _. split; [reflexivity|]. split; [|split].
        -- constructor; [|exact Hrep'].
           apply (represents_frame h); [apply Hframe, Hcr | by split].
        -- rewrite !fmap_cons. by rewrite Hmap.
        -- intros l Hl. rewrite ?fmap_cons in Hl.
           apply not_elem_of_cons in Hl as [_ Hl]. by apply Hframe.
      * rewrite IH. reflexivity.
Qed.

Lemma represents_centres (h : gmap positive Color) clusters pclusters l :
  Forall2 (represents h) clusters pclusters ->
  l ∈ centerOf <$> clusters -> is_Some (h !! l).
Proof.
  intros Hrep Hl. apply list_elem_of_fmap in Hl as (cr & -> & Hcr).
  eapply represents_elem; eassumption.
Qed.

Lemma addColorH_refines (h0 h : gmap positive Color) clusters pclusters color v :
  storeInv h0 h clusters pclusters ->
  h0 !! color = Some v ->
  exists h' cs',
    addColorH (h, clusters) color = Some (h', cs') /\
    storeInv h0 h' cs' (addColor pclusters v).
Proof.
  intros (Hframe & Hrep & Hnodup & Hnew) Hv0.
  assert (Hv : h !! color = Some v) by auto.
  assert (Hfresh : color ∉ centerOf <$> clusters).
  { intros Hin. apply Hnew in Hin. congruence. }
  pose proof (scanClustersH_refines h color v clusters pclusters
                Hv Hrep Hnodup Hfresh) as Hscan.
  unfold addColorH, addColor. cbn [fst snd].
  destruct (scanClusters v pclusters) as [pcs'|].
  - destruct Hscan as (h' & cs' & E & Hrep' & Hmap & Hsame).
    rewrite E. simpl. exists h', cs'. split; [reflexivity|].
    split; [|split; [exact Hrep'|split]].
    + intros l o Hl. rewrite Hsame; [auto|].
      intros Hin. apply Hnew in Hin. congruence.
    + by rewrite Hmap.
    + rewrite Hmap. exact Hnew.
  - rewrite Hscan. simpl. unfold spread. rewrite Hv. simpl.
    set (l := fresh (dom h)).
    assert (Hl : h !! l = None).
    { apply not_elem_of_dom. apply is_fresh. }
    assert (Hl0 : h0 !! l = None).
    { destruct (h0 !! l) as [o|] eqn:E; [|reflexivity].
      apply Hframe in E. congruence. }
    assert (Hlc : l ∉ centerOf <$> clusters).
    { intros Hin. destruct (represents_centres h _ _ l Hrep Hin) as [o Ho].
      congruence. }
    eexists _, _. split; [reflexivity|]. split; [|split; [|split]].
    + intros l' o Hl'. rewrite lookup_insert_ne; [auto|].
      intros <-. congruence.
    + apply Forall2_app.
      * apply (Forall2_represents_frame h); [|exact Hrep].
        intros l' Hl'. rewrite lookup_insert_ne; [reflexivity|].
        intros <-. contradiction.
      * repeat constructor. simpl. apply lookup_insert_eq.
    + rewrite fmap_app. apply NoDup_app. split; [exact Hnodup|]. split.
      * intros l' Hl' Hin. apply list_elem_of_singleton in Hin. subst l'.
        contradiction.
      * apply NoDup_singleton.
    + intros l' Hl'. rewrite fmap_app in Hl'.
      apply elem_of_app in Hl' as [Hl'|Hl']; [auto|].
      apply list_elem_of_singleton in Hl'. by subst l'.
Qed.

Lemma forEachH_refines (h0 : gmap positive Color) colors values :
  Forall2 (fun l v => h0 !! l = Some v) colors values ->
  forall h clusters pclusters,
  storeInv h0 h clusters pclusters ->
  exists h' cs',
    forEachH colors (h, clusters) = Some (h', cs') /\
    storeInv h0 h' cs' (fold_left addColor values pclusters).
Proof.
  induction 1 as [|color v colors values Hv _ IH]; intros h clusters pclusters Hinv.
  - exists h, clusters. split; [reflexivity | exact Hinv].
  - destruct (addColorH_refines h0 h clusters pclusters color v Hinv Hv)
      as (h1 & cs1 & E & Hinv1).
    cbn [forEachH]. rewrite E. simpl. apply IH, Hinv1.
Qed.

Section SortRelated.
Context {A B : Type} (R : A -> B -> Prop) (ca : A -> Z) (cb : B -> Z).
Hypothesis R_count : forall x y, R x y -> ca x = cb y.

Lemma insertByCount_related x y l l' :
  R x y -> Forall2 R l l' ->
  Forall2 R (insertByCount ca x l) (insertByCount cb y l').
Proof.
  intros Hxy. induction 1 as [|a b' l l' Hab Hl IH]; simpl.
  - repeat constructor. exact Hxy.
  - rewrite (R_count _ _ Hab), (R_count _ _ Hxy).
    destruct (cb b' <=? cb y)%Z; repeat (constructor; try assumption).
Qed.

Lemma sortByCount_related l l' :
  Forall2 R l l' -> Forall2 R (sortByCount ca l) (sortByCount cb l').
Proof.
  induction 1; simpl; [constructor|]. by apply insertByCount_related.
Qed.

Lemma last_related l l' d d' :
  Forall2 R l l' -> R d d' -> R (List.last l d) (List.last l' d').
Proof.
  intros H. revert d d'. induction H as [|a b' l l' Hab Hl IH]; intros d d' Hd.
  - exact Hd.
  - destruct Hl as [|a2 b2 l l' H2 Hl]; [exact Hab|].
    change (R (List.last (a2 :: l) d) (List.last (b2 :: l') d')).
    apply IH, Hd.
Qed.
End SortRelated.

(** C10. [analyzeColors] never mutates its input. Run on a store in which
    the array [colors] refers to the colour objects [values], it returns
    what the function on values returns, and afterwards every object of the
    store it started from, those of the array among them, holds the same
    [r], [g] and [b]: the writes go to the centres only, which are copies
    allocated by the call. *)
Theorem analyzeColorsH_preserves_input (h : gmap positive Color)
    (colors : list positive) (values : list Color) :
  Forall2 (fun l v => h !! l = Some v) colors values ->
  exists h',
    analyzeColorsH h colors = Some (h', analyzeColors values) /\
    Forall2 (fun l v => h' !! l = Some v) colors values /\
    (forall l o, h !! l = Some o -> h' !! l = Some o).
Proof.
  intros Hvals.
  destruct Hvals as [|color v colors values Hv Hvals].
  { exists h. split; [reflexivity|]. split; [constructor | auto]. }
  assert (Hall : Forall2 (fun l v => h !! l = Some v)
                         (color :: colors) (v :: values))
    by (constructor; assumption).
  clear Hv Hvals.
  set (cs := color :: colors) in *. set (vs := v :: values) in *.
  destruct (forEachH_refines h cs vs Hall h [] [])
    as (h' & cls & Hfold & Hframe & Hrep & _ & _).
  { split; [auto|]. split; [constructor|]. split; [constructor|].
    intros l Hl. by apply elem_of_nil in Hl. }
  exists h'.
  assert (Hlen : len cs = len vs).
  { unfold len. by rewrite (Forall2_length _ _ _ Hall). }
  assert (Hsorted : Forall2 (represents h') (sortByCount countOf cls)
                            (sortByCount count (buildClusters vs))).
  { apply sortByCount_related; [|exact Hrep]. intros x y [_ Hc]. exact Hc. }
  split; [|split].
  - unfold analyzeColorsH, analyzeColors. fold cs vs.
    subst cs vs.
    rewrite (proj2 (mapM_Some _ _ _) Hall). cbn [mbind option_bind].
    rewrite Hlen. destruct (totals (v :: values)) as [[tR tG] tB].
    rewrite Hfold. cbn [mbind option_bind fst snd].
    fold (buildClusters (v :: values)).
    destruct Hsorted as [|first pfirst rest prest Hfirst Hrest].
    + reflexivity.
    + pose proof (last_related (represents h') (first :: rest) (pfirst :: prest)
                    first pfirst ltac:(constructor; assumption) Hfirst)
        as Hlast.
      destruct Hfirst as [Hf _], Hlast as [Hl _].
      rewrite Hf. cbn [mbind option_bind]. rewrite Hl. reflexivity.
  - eapply Forall2_impl; [exact Hall|]. intros l o Hl. simpl in Hl. auto.
  - exact Hframe.
Qed.

Lemma analyzeColorsH_preserves_input_witness :
  let c1 := mkColor 10 20 30 in
  let c2 := mkColor 12 20 30 in
  let h : gmap positive Color := <[2%positive := c2]> {[1%positive := c1]} in
  exists h',
    analyzeColorsH h [1; 2; 1]%positive
    = Some (h', analyzeColors [c1; c2; c1]) /\
    h' !! 1%positive = Some c1 /\ h' !! 2%positive = Some c2.
Proof.
  intros c1 c2 h.
  destruct (analyzeColorsH_preserves_input h [1; 2; 1]%positive [c1; c2; c1])
    as (h' & E & _ & Hframe); [repeat constructor|].
  exists h'. split; [exact E|]. split; apply Hframe; reflexivity.
Defined.

(** ** Examples *)

(** Two colours far apart, once each: the sort is stable, so the cluster
    created first is [dominant] and the one created last is [least]. *)
Example analyze_tie :
  analyzeColors [mkColor 0 0 0; mkColor 200 0 0]
  = Normal (Some (mkResult (mkColor 100 0 0) (mkColor 0 0 0)
                           (mkColor 200 0 0))).
Proof. vm_compute. reflexivity. Qed.

(** The test is strict: at distance exactly 30 a new cluster is created. *)
Example clusters_at_threshold :
  buildClusters [mkColor 0 0 0; mkColor 30 0 0]
  = [mkCluster (mkColor 0 0 0) 1; mkCluster (mkColor 30 0 0) 1].
Proof. vm_compute. reflexivity. Qed.

(** The third colour is closer than 30 to both clusters and joins the one
    created first. *)
Example clusters_first_fit :
  buildClusters [mkColor 0 0 0; mkColor 50 0 0; mkColor 25 0 0]
  = [mkCluster (mkColor (25 # 2) (0 # 2) (0 # 2)) 2;
     mkCluster (mkColor 50 0 0) 1].
Proof. vm_compute. reflexivity. Qed.

(** A sequence of 240 identical colours. *)
Example analyze_identical :
  analyzeColors (repeat (mkColor 10 20 30) 240)
  = Normal (Some (mkResult (mkColor 10 20 30) (mkColor 10 20 30)
                           (mkColor 10 20 30))).
Proof.
  set (colors := repeat (mkColor 10 20 30) 240).
  assert (Hne : colors <> []) by discriminate.
  destruct (buildClusters_single colors Hne) as (k & Hb & _ & Hmean);
    [vm_compute; reflexivity|].
  destruct (analyzeColors_nonempty colors Hne) as (first & rest & Hs & Hres).
  rewrite Hb in Hs. simpl in Hs. inversion Hs; subst first rest.
  destruct (totals_sums colors) as (Hr & Hg & Hbl).
  rewrite Hres. cbn [List.last]. unfold rounded.
  rewrite (Hmean r), (Hmean g), (Hmean b), Hr, Hg, Hbl by auto.
  vm_compute. reflexivity.
Qed.

(** Two colours far apart, the first five times as frequent as the
    second. *)
Example analyze_two_colours :
  analyzeColors (repeat (mkColor 255 0 0) 20 ++ repeat (mkColor 0 0 255) 4)
  = Normal (Some (mkResult (mkColor 213 0 43) (mkColor 255 0 0)
                           (mkColor 0 0 255))).
Proof. vm_compute. reflexivity. Qed.

(** The targets of the seeks in a video of 120 seconds. *)
Example seekTime_120 :
  seekTime 120 0 == 0 /\ seekTime 120 1 == 1 # 2 /\
  seekTime 120 239 == 239 # 2.
Proof. repeat split; vm_compute; reflexivity. Qed.

(** ** The sampling loops *)

Lemma progressOf_app l1 l2 : progressOf (l1 ++ l2) = progressOf l1 ++ progressOf l2.
Proof. unfold progressOf. apply flat_map_app. Qed.

Lemma seeksOf_app l1 l2 : seeksOf (l1 ++ l2) = seeksOf l1 ++ seeksOf l2.
Proof. unfold seeksOf. apply flat_map_app. Qed.

Lemma FRAME_COUNT_pos : (0 < FRAME_COUNT)%nat.
Proof. unfold FRAME_COUNT. lia. Qed.

Ltac native_fields :=
  cbn [promise started duration colors currentFrame seeking timer log].

Lemma nativeInv_initial : nativeInv initial.
Proof.
  constructor; unfold initial; native_fields;
    try reflexivity; try lia; try discriminate; auto.
Qed.

Lemma nativeInv_reject s message :
  promise s = Pending -> nativeInv s ->
  nativeInv (settleWith (Rejected message) (cleanup s)).
Proof.
  intros Hp [Hlen Hprog Hle Hseek Hex Hidle Hres].
  constructor; unfold settleWith, cleanup; native_fields;
    rewrite ?Hp, ?progressOf_app, ?seeksOf_app, ?app_nil_r; simpl settle;
    try assumption.
  discriminate.
Qed.

(** [processFrame] runs with no seek in progress and no timer pending. *)
Lemma nativeInv_processFrame s :
  promise s = Pending -> started s = true ->
  seeking s = false -> timer s = false ->
  nativeInv s -> nativeInv (processFrame s).
Proof.
  intros Hp Hst Hsk Htm [Hlen Hprog Hle Hseek Hex Hidle Hres].
  unfold processFrame.
  destruct (Nat.leb_spec FRAME_COUNT (currentFrame s)) as [Hge|Hlt];
    constructor; unfold settleWith, cleanup; native_fields;
    rewrite ?Hp, ?progressOf_app, ?seeksOf_app, ?app_nil_r; simpl settle;
    try assumption; try congruence.
  intros cs Hcs. inversion Hcs. split; [reflexivity | lia].
Qed.

Lemma nativeInv_onloadedmetadata d s :
  promise s = Pending -> started s = false ->
  nativeInv s -> nativeInv (onloadedmetadata d s).
Proof.
  intros Hp Hst Hinv. unfold onloadedmetadata.
  destruct (unusable d); [apply nativeInv_reject; assumption|].
  destruct Hinv as [Hlen Hprog Hle Hseek Hex Hidle Hres].
  destruct (Hidle Hst) as (Hsk & Htm & Hcf & Hsks).
  apply nativeInv_processFrame; try assumption; try reflexivity.
  rewrite Hcf in Hprog.
  constructor; native_fields; try assumption; try congruence; try lia.
  reflexivity.
Qed.

Lemma nativeInv_onseeked frame s :
  promise s = Pending -> seeking s = true ->
  nativeInv s -> nativeInv (onseeked frame s).
Proof.
  intros Hp Hsk [Hlen Hprog Hle Hseek Hex Hidle Hres].
  specialize (Hseek Hsk).
  constructor; unfold onseeked; native_fields;
    rewrite ?progressOf_app, ?length_app, ?seq_S, ?map_app, ?Hprog, ?Hlen;
    simpl; try lia; try congruence; try discriminate.
  intros Hst. destruct (Hidle Hst) as (Hsk' & _). congruence.
Qed.

Lemma nativeInv_ontimeout s :
  promise s = Pending -> timer s = true ->
  nativeInv s -> nativeInv (ontimeout s).
Proof.
  intros Hp Htm [Hlen Hprog Hle Hseek Hex Hidle Hres].
  assert (Hst : started s = true).
  { destruct (started s) eqn:E; [reflexivity|].
    destruct (Hidle eq_refl) as (_ & Htm' & _). congruence. }
  assert (Hsk : seeking s = false).
  { destruct (seeking s) eqn:E; [|reflexivity].
    specialize (Hex eq_refl). congruence. }
  unfold ontimeout. apply nativeInv_processFrame; native_fields; try assumption;
    try reflexivity.
  constructor; native_fields; try assumption; try congruence.
Qed.

Lemma nativeInv_dispatch s e : nativeInv s -> nativeInv (dispatch s e).
Proof.
  intros Hinv. unfold dispatch.
  destruct (promise s) eqn:Hp; try exact Hinv.
  destruct e as [|d|frame|].
  - apply nativeInv_reject; assumption.
  - destruct (started s) eqn:Hst; [exact Hinv|].
    apply nativeInv_onloadedmetadata; assumption.
  - destruct (seeking s) eqn:Hsk; [|exact Hinv].
    apply nativeInv_onseeked; assumption.
  - destruct (timer s) eqn:Htm; [|exact Hinv].
    apply nativeInv_ontimeout; assumption.
Qed.

Lemma nativeInv_fold events : forall s,
  nativeInv s -> nativeInv (fold_left dispatch events s).
Proof.
  induction events as [|e events IH]; intros s Hinv; simpl; [exact Hinv|].
  apply IH, nativeInv_dispatch, Hinv.
Qed.

Lemma processVideoNative_inv events : nativeInv (processVideoNative events).
Proof. apply nativeInv_fold, nativeInv_initial. Qed.

(** ** The progress values *)

Lemma nativePercent_mono n m :
  (n <= m)%nat -> (nativePercent n <= nativePercent m)%Z.
Proof.
  intros H. unfold nativePercent. apply Math_round_mono.
  apply Qmult_le_compat_r; [|discriminate].
  apply Qmult_le_compat_r; [|discriminate].
  rewrite <- Zle_Qle. lia.
Qed.

Lemma fallbackPercent_mono n m :
  (n <= m)%nat -> (fallbackPercent n <= fallbackPercent m)%Z.
Proof.
  intros H. unfold fallbackPercent. apply Math_round_mono.
  apply Qplus_le_r.
  apply Qmult_le_compat_r; [|discriminate].
  apply Qmult_le_compat_r; [|discriminate].
  rewrite <- Zle_Qle. lia.
Qed.

Lemma nativePercent_values :
  nativePercent 238 = 99%Z /\ nativePercent 239 = 100%Z /\
  nativePercent FRAME_COUNT = 100%Z.
Proof. repeat split; vm_compute; reflexivity. Qed.

Lemma fallbackPercent_values :
  fallbackPercent 1 = 10%Z /\ fallbackPercent (FRAME_COUNT + 10) = 93%Z.
Proof. repeat split; vm_compute; reflexivity. Qed.

Lemma nondecreasing_map_seq (f : nat -> Z) :
  (forall n m, (n <= m)%nat -> (f n <= f m)%Z) ->
  forall n start, nondecreasing (map f (seq start n)).
Proof.
  intros Hf. unfold nondecreasing.
  induction n as [|n IH]; intros start; simpl; [constructor|].
  constructor; [apply IH|].
  destruct n; simpl; constructor. apply Hf. lia.
Qed.

Lemma nondecreasing_app l1 l2 :
  nondecreasing l1 -> nondecreasing l2 ->
  (forall x y, In x l1 -> In y l2 -> (x <= y)%Z) ->
  nondecreasing (l1 ++ l2).
Proof.
  unfold nondecreasing. intros H1 H2 H12.
  induction l1 as [|a l1 IH]; simpl; [exact H2|].
  apply Sorted_inv in H1. destruct H1 as [H1 Hd].
  constructor.
  - apply IH; [exact H1|]. intros x y Hx Hy.
    apply H12; [right; exact Hx | exact Hy].
  - destruct l1 as [|b l1]; simpl.
    + destruct l2 as [|c l2]; constructor.
      apply H12; left; reflexivity.
    + constructor. inversion Hd; assumption.
Qed.

(** ** A video that plays back *)

Lemma processFrame_done s :
  (FRAME_COUNT <= currentFrame s)%nat ->
  processFrame s = settleWith (Resolved (colors s)) (cleanup s).
Proof.
  intros H. unfold processFrame.
  destruct (Nat.leb_spec FRAME_COUNT (currentFrame s)); [reflexivity | lia].
Qed.

Lemma processFrame_seek s :
  (currentFrame s < FRAME_COUNT)%nat ->
  processFrame s =
    mkNative (promise s) (started s) (duration s) (colors s) (currentFrame s)
             true (timer s)
             (log s ++ [Seek (seekTime (duration s) (currentFrame s))]).
Proof.
  intros H. unfold processFrame.
  destruct (Nat.leb_spec FRAME_COUNT (currentFrame s)); [lia | reflexivity].
Qed.

Lemma dispatch_seeked s frame :
  promise s = Pending -> seeking s = true ->
  dispatch s (EvSeeked frame) = onseeked frame s.
Proof. intros Hp Hsk. unfold dispatch. rewrite Hp, Hsk. reflexivity. Qed.

Lemma dispatch_timeout s :
  promise s = Pending -> timer s = true -> dispatch s EvTimeout = ontimeout s.
Proof. intros Hp Htm. unfold dispatch. rewrite Hp, Htm. reflexivity. Qed.

Lemma native_loop frames : forall s0,
  promise s0 = Pending -> seeking s0 = false -> timer s0 = false ->
  (currentFrame s0 + length frames = FRAME_COUNT)%nat ->
  promise (fold_left dispatch
             (flat_map (fun f => [EvSeeked f; EvTimeout]) frames)
             (processFrame s0))
  = Resolved (colors s0 ++ map captured frames).
Proof.
  induction frames as [|f frames IH]; intros s0 Hp Hsk Htm Hcf.
  - simpl in *. rewrite processFrame_done by lia.
    unfold settleWith, cleanup; native_fields. rewrite Hp, app_nil_r. reflexivity.
  - simpl length in Hcf. rewrite processFrame_seek by lia.
    cbn [flat_map app fold_left].
    rewrite dispatch_seeked by (native_fields; auto).
    rewrite dispatch_timeout by (unfold onseeked; native_fields; auto).
    unfold ontimeout, onseeked; native_fields.
    rewrite IH; native_fields; try reflexivity; try assumption; try lia.
    rewrite <- app_assoc. reflexivity.
Qed.

(** When the metadata load with a usable duration and every one of the
    [FRAME_COUNT] seeks completes, the native path resolves with one colour
    per seek, black where the capture threw. *)
Lemma native_playback d frames :
  unusable d = false -> length frames = FRAME_COUNT ->
  promise (processVideoNative (playback d frames))
  = Resolved (map captured frames).
Proof.
  intros Hd Hlen. unfold processVideoNative, playback. cbn [fold_left].
  unfold dispatch at 2, initial; native_fields.
  unfold onloadedmetadata. rewrite Hd; native_fields.
  rewrite native_loop; native_fields; try reflexivity. exact Hlen.
Qed.

(** ** The reading loop of the fallback *)

Lemma bind_emit {B} (a : Action) (k : unit -> M B) :
  bind (emit a) k = (a :: (k tt).1, (k tt).2).
Proof. unfold bind, emit. destruct (k tt). reflexivity. Qed.

Lemma bind_normal {A B} (l : list Action) (a : A) (k : A -> M B) :
  bind (l, Normal a) k = (l ++ (k a).1, (k a).2).
Proof. unfold bind. destruct (k a). reflexivity. Qed.

(** The loop never throws; it reports once per completed iteration, and it
    pushes at most one colour per iteration. *)
Lemma readFrames_spec env n : forall i colors,
  exists l cs j,
    readFrames env n i colors = (l, Normal cs) /\
    (j <= n)%nat /\
    progressOf l = map fallbackPercent (seq i j) /\
    (length colors <= length cs <= length colors + n)%nat.
Proof.
  induction n as [|n IH]; intros i colors.
  - exists [], colors, O. simpl. repeat split; lia.
  - cbn [readFrames]. destruct (frameFile env i) as [| |data deletes].
    + exists [ReadFile i], colors, O. repeat split; simpl; lia.
    + exists [ReadFile i], colors, O. repeat split; simpl; lia.
    + destruct deletes.
      * destruct (IH (S i) (colors ++ [getAverageColor data]))
          as (l & cs & j & E & Hj & Hp & Hlen).
        rewrite !bind_emit, E. cbn [fst snd].
        exists (ReadFile i :: DeleteFile i :: Progress (fallbackPercent i) :: l),
               cs, (S j).
        rewrite length_app in Hlen. simpl in Hlen.
        repeat split; try lia. simpl. rewrite Hp. reflexivity.
      * rewrite !bind_emit. cbn [fst snd ret].
        exists [ReadFile i; DeleteFile i], (colors ++ [getAverageColor data]), O.
        rewrite length_app. simpl. repeat split; lia.
Qed.

(** When the engine wrote the images 1 to [k], the loop reads them all, up
    to its cap. *)
Lemma readFrames_wrote env n : forall i k colors,
  (forall j, (i <= j < i + k)%nat ->
             exists data, frameFile env j = Image data true) ->
  frameFile env (i + k) = Missing ->
  exists l cs,
    readFrames env n i colors = (l, Normal cs) /\
    length cs = (length colors + Nat.min k n)%nat.
Proof.
  induction n as [|n IH]; intros i k colors Hall Hend.
  - exists [], colors. simpl. split; [reflexivity | lia].
  - cbn [readFrames]. destruct k as [|k].
    + rewrite Nat.add_0_r in Hend. rewrite Hend.
      exists [ReadFile i], colors. simpl. split; [reflexivity | lia].
    + destruct (Hall i) as [data Hd]; [lia|]. rewrite Hd.
      destruct (IH (S i) k (colors ++ [getAverageColor data]))
        as (l & cs & E & Hlen).
      * intros j Hj. apply Hall. lia.
      * replace (S i + k)%nat with (i + S k)%nat by lia. exact Hend.
      * rewrite !bind_emit, E. cbn [fst snd].
        eexists _, cs. split; [reflexivity|].
        rewrite Hlen, length_app. simpl. lia.
Qed.

(** The shape of a run of the fallback that resolves. *)
Lemma processVideoFFmpeg_resolved env l cs :
  processVideoFFmpeg env = (l, Normal cs) ->
  exists lr,
    readFrames env (FRAME_COUNT + 10) 1 [] = (lr, Normal cs) /\
    progressOf l = [1; 10]%Z ++ progressOf lr ++ [100%Z].
Proof.
  unfold processVideoFFmpeg.
  destruct (readFrames env (FRAME_COUNT + 10) 1 []) as [lr res] eqn:E.
  destruct (readFrames_spec env (FRAME_COUNT + 10) 1 [])
    as (lr' & cs' & j & E' & _). rewrite E in E'. inversion E'; subst lr' res.
  set (fps := inject_Z (Z.of_nat FRAME_COUNT) / _).
  destruct (ff_loaded env), (ff_load env), (GiB <? file_size env)%Z,
    (confirmed env), (ff_write env), (ff_probe env), (ff_extract env),
    (ff_deleteInput env);
    cbn [bind emit engine ret throw app]; intros H; inversion H; subst;
    exists lr; (split; [reflexivity|]);
    rewrite ?app_nil_r; cbn [progressOf flat_map app];
    rewrite ?flat_map_app; reflexivity.
Qed.

(** ** processVideo *)

(** How [processVideo] can resolve: on the native path, or on the fallback
    after the native path rejected. *)
Lemma processVideo_resolved events env l cs :
  processVideo events env = (l, Resolved cs) ->
  (promise (processVideoNative events) = Resolved cs /\
   l = log (processVideoNative events)) \/
  (exists message lf,
     promise (processVideoNative events) = Rejected message /\
     processVideoFFmpeg env = (lf, Normal cs) /\
     l = log (processVideoNative events) ++ lf).
Proof.
  unfold processVideo.
  destruct (promise (processVideoNative events)) as [|v|message] eqn:Hp.
  - discriminate.
  - intros H. inversion H; subst. left. auto.
  - destruct (fallsBack message); [|discriminate].
    destruct (processVideoFFmpeg env) as [lf [csf|e]]; intros H; inversion H; subst.
    right. exists message, lf. auto.
Qed.

(** C1. When [processVideo] resolves on the native path, the sequence has
    exactly [FRAME_COUNT] = 240 entries. When it resolves on the fallback
    path, the sequence has at most [FRAME_COUNT + 10] = 250 entries, one
    for each image the engine wrote: [k] of them if it wrote [k] images
    that decode and [k] is at most 250. *)
Theorem processVideo_length events env l cs :
  processVideo events env = (l, Resolved cs) ->
  match promise (processVideoNative events) with
  | Resolved _ => length cs = FRAME_COUNT
  | _ =>
      (length cs <= FRAME_COUNT + 10)%nat /\
      forall k, wroteFrames env k ->
                length cs = Nat.min k (FRAME_COUNT + 10)
  end.
Proof.
  intros H. apply processVideo_resolved in H.
  destruct H as [[Hp _] | (message & lf & Hp & Hf & _)]; rewrite Hp.
  - destruct (processVideoNative_inv events) as [Hlen _ _ _ _ _ Hres].
    destruct (Hres cs Hp) as [-> Hcf]. congruence.
  - apply processVideoFFmpeg_resolved in Hf. destruct Hf as (lr & Hr & _).
    split.
    + destruct (readFrames_spec env (FRAME_COUNT + 10) 1 [])
        as (lr' & cs' & j & E & _ & _ & Hlen).
      rewrite Hr in E. inversion E; subst. simpl length in Hlen. lia.
    + intros k [Hall Hend].
      destruct (readFrames_wrote env (FRAME_COUNT + 10) 1 k [])
        as (lr' & cs' & E & Hlen).
      * intros j Hj. apply Hall. lia.
      * exact Hend.
      * rewrite Hr in E. inversion E; subst. exact Hlen.
Qed.

Lemma processVideo_length_witness :
  exists l cs,
    processVideo [EvError] (engineWith probeOutput threeFrames)
    = (l, Resolved cs) /\ length cs = 3%nat.
Proof.
  eexists _, _. split; [vm_compute; reflexivity|].
  pose proof (processVideo_length [EvError]
                (engineWith probeOutput threeFrames) _ _ eq_refl) as H.
  apply (proj2 H 3%nat). split; [|reflexivity].
  intros i Hi. exists sampleImage.
  destruct i as [|[|[|[|i]]]]; try lia; reflexivity.
Defined.

(** A format the browser does not play, and a probe that finds no duration:
    with the assumed two hours the extraction runs at one frame in 30
    seconds, which for a video of a minute and a half yields three images.
    [processVideo] resolves with three colours. *)
Lemma processVideo_length_counterexample :
  exists l cs,
    processVideo [EvError] (engineWith probeOutputNoDuration threeFrames)
    = (l, Resolved cs) /\ length cs = 3%nat /\ length cs <> FRAME_COUNT.
Proof.
  eexists _, _. split; [vm_compute; reflexivity|].
  split; [reflexivity | vm_compute; discriminate].
Qed.

Lemma nativePercent_100 k :
  (1 <= k <= FRAME_COUNT)%nat -> (nativePercent k = 100%Z <-> (239 <= k)%nat).
Proof.
  intros Hk. destruct nativePercent_values as (H238 & H239 & H240).
  split; intros H.
  - destruct (Nat.le_gt_cases 239 k) as [|Hlt]; [assumption|].
    pose proof (nativePercent_mono k 238 ltac:(lia)). lia.
  - pose proof (nativePercent_mono 239 k H).
    pose proof (nativePercent_mono k FRAME_COUNT ltac:(lia)). lia.
Qed.

Lemma fallbackPercent_bounds i :
  (1 <= i <= FRAME_COUNT + 10)%nat -> (10 <= fallbackPercent i <= 93)%Z.
Proof.
  intros Hi. destruct fallbackPercent_values as (H1 & H250).
  pose proof (fallbackPercent_mono 1 i ltac:(lia)).
  pose proof (fallbackPercent_mono i (FRAME_COUNT + 10) ltac:(lia)). lia.
Qed.

Lemma last_app_one {A} (l : list A) (a d : A) : List.last (l ++ [a]) d = a.
Proof. apply last_last. Qed.

(** The reports of a run of the fallback that resolves: 1, then 10, then
    one value between 10 and 93 per image read, then 100. *)
Lemma processVideoFFmpeg_progress env l cs :
  processVideoFFmpeg env = (l, Normal cs) ->
  exists reports,
    progressOf l = reports ++ [100%Z] /\
    nondecreasing (reports ++ [100%Z]) /\
    Forall (fun p => (p < 100)%Z) reports.
Proof.
  intros H. apply processVideoFFmpeg_resolved in H.
  destruct H as (lr & Hr & Hp).
  destruct (readFrames_spec env (FRAME_COUNT + 10) 1 [])
    as (lr' & cs' & j & E & Hj & Hpr & _).
  rewrite Hr in E. inversion E; subst lr' cs'. clear E.
  assert (Hin : forall p, In p (map fallbackPercent (seq 1 j)) ->
                          (10 <= p <= 93)%Z).
  { intros p Hp'. apply in_map_iff in Hp' as (i & <- & Hi).
    apply in_seq in Hi. apply fallbackPercent_bounds. lia. }
  exists ([1; 10]%Z ++ map fallbackPercent (seq 1 j)).
  rewrite Hp, Hpr. split; [rewrite <- app_assoc; reflexivity|]. split.
  - rewrite <- app_assoc. apply nondecreasing_app.
    + repeat constructor. lia.
    + apply nondecreasing_app.
      * apply nondecreasing_map_seq, fallbackPercent_mono.
      * repeat constructor.
      * intros x y Hx [<-|[]]. specialize (Hin x Hx). lia.
    + intros x y Hx Hy. apply in_app_or in Hy.
      assert (10 <= y)%Z.
      { destruct Hy as [Hy|[<-|[]]]; [apply Hin in Hy|]; lia. }
      destruct Hx as [<-|[<-|[]]]; lia.
  - apply Forall_app. split; [repeat constructor; lia|].
    apply List.Forall_forall. intros p Hp'. apply Hin in Hp'. lia.
Qed.




(** C3, on the fallback path. The engine wrote five images, the third of
    which does not decode: the loop stops there. The sequence has the two
    colours read before it, no black entry stands for the third image, and
    the fourth and fifth are never read. (On the native path a capture that
    throws yields black and the loop goes on: [native_playback].) *)
Theorem fallback_stops_at_corrupt_frame :
  let env := engineWith probeOutput corruptThird in
  (forall i, In i [1; 2; 4; 5]%nat -> frameFile env i = Image sampleImage true) /\
  frameFile env 3 = Corrupt /\
  exists l,
    processVideo [EvError] env
    = (l, Resolved [mkColor 15 25 35; mkColor 15 25 35]) /\
    ~ In (ReadFile 4) l.
Proof.
  intros env. split; [|split].
  - intros i [<-|[<-|[<-|[<-|[]]]]]; reflexivity.
  - reflexivity.
  - eexists. split; [vm_compute; reflexivity|].
    intros Hin. repeat (destruct Hin as [Hin|Hin]; [discriminate|]). exact Hin.
Qed.

(** ** An unusable duration *)

Lemma settled_fold events : forall s,
  promise s <> Pending -> fold_left dispatch events s = s.
Proof.
  induction events as [|e events IH]; intros s Hp; simpl; [reflexivity|].
  assert (E : dispatch s e = s).
  { unfold dispatch.
    destruct (promise s); [congruence | reflexivity | reflexivity]. }
  rewrite E. apply IH, Hp.
Qed.

(** C4. If the metadata report a duration that is missing ([NaN]), zero or
    infinite, the native path rejects with "Could not determine video
    duration" before any seek: it has sampled nothing and reported no
    progress. [processVideo] does not fail with that error: it goes on with
    the fallback path, and resolves or rejects as the fallback does. *)
Theorem unusable_duration_falls_back d events env :
  unusable d = true ->
  let native := processVideoNative (EvLoadedMetadata d :: events) in
  promise native = Rejected "Could not determine video duration" /\
  log native = [Revoke] /\
  colors native = [] /\
  processVideo (EvLoadedMetadata d :: events) env
  = (Revoke :: (processVideoFFmpeg env).1,
     match (processVideoFFmpeg env).2 with
     | Normal cs => Resolved cs
     | Throw e => Rejected e
     end).
Proof.
  intros Hd native.
  assert (E : native = mkNative (Rejected "Could not determine video duration")
                                false 0 [] 0 false false [Revoke]).
  { unfold native, processVideoNative. cbn [fold_left].
    unfold dispatch at 2, initial; native_fields.
    unfold onloadedmetadata. rewrite Hd.
    apply settled_fold. discriminate. }
  unfold processVideo. fold native. rewrite E; native_fields.
  repeat split.
  destruct (processVideoFFmpeg env) as [lf res]. reflexivity.
Qed.

Lemma unusable_duration_falls_back_witness :
  promise (processVideoNative [EvLoadedMetadata Infinity])
  = Rejected "Could not determine video duration" /\
  log (processVideoNative [EvLoadedMetadata Infinity]) = [Revoke].
Proof.
  destruct (unusable_duration_falls_back Infinity []
              (engineWith probeOutput threeFrames) eq_refl)
    as (Hp & Hl & _).
  split; [exact Hp | exact Hl].
Defined.

(** A video reporting an infinite duration, for which the probe finds no
    duration either and the engine extracts three frames: [processVideo]
    does not reject, it resolves with three samples. *)
Lemma unusable_duration_counterexample :
  exists l,
    processVideo [EvLoadedMetadata Infinity]
                 (engineWith probeOutputNoDuration threeFrames)
    = (l, Resolved [mkColor 15 25 35; mkColor 15 25 35; mkColor 15 25 35]).
Proof. eexists. vm_compute. reflexivity. Qed.

(** ** The duration probe *)

Lemma logHandler_no_match messages : forall duration,
  Forall (fun message => matchDuration message = None) messages ->
  fold_left logHandler messages duration = duration.
Proof.
  induction messages as [|m messages IH]; intros duration H; simpl; [reflexivity|].
  apply Forall_cons_1 in H. destruct H as [Hm H].
  unfold logHandler at 2. rewrite Hm. apply IH, H.
Qed.

(** C9. On the fallback path, when no message of the probe's log matches
    the duration pattern, the duration is taken to be 7200 seconds: after
    the probe the operation reports 10 and runs the extraction with
    [fps = FRAME_COUNT / 7200], and it resolves if the extraction and the
    final clean-up succeed. *)
Theorem fallback_assumes_two_hours env :
  probes env ->
  Forall (fun message => matchDuration message = None) (probeLog env) ->
  (exists before after,
     (processVideoFFmpeg env).1
     = before ++ Probe :: Progress 10
         :: Extract (inject_Z (Z.of_nat FRAME_COUNT) / 7200) :: after) /\
  (ff_extract env = None -> ff_deleteInput env = None ->
   exists cs, (processVideoFFmpeg env).2 = Normal cs).
Proof.
  intros (Hload & Hsize & Hwrite & Hprobe) Hlog.
  unfold processVideoFFmpeg.
  rewrite (logHandler_no_match _ 0 Hlog). change (Qeq_bool 0 0) with true.
  cbv iota. rewrite Hwrite, Hprobe.
  destruct (readFrames_spec env (FRAME_COUNT + 10) 1 [])
    as (lr & cs & j & E & _). rewrite E.
  assert (Hconfirm : (GiB <? file_size env)%Z = false \/ confirmed env = true).
  { destruct Hsize as [H|H]; [left; apply Z.ltb_ge, H | right; exact H]. }
  split.
  - destruct (ff_loaded env) eqn:Hl, (ff_load env) eqn:Hl',
      (GiB <? file_size env)%Z eqn:Hs, (confirmed env) eqn:Hc,
      (ff_extract env), (ff_deleteInput env);
      try (destruct Hload; discriminate);
      try (destruct Hconfirm; discriminate);
      cbn [bind emit engine ret throw app fst snd];
      first [ exists [Progress 1%Z; WriteInput]; eexists; reflexivity
            | exists [Progress 1%Z; Confirm; WriteInput]; eexists; reflexivity
            | exists [Progress 1%Z; Load; WriteInput]; eexists; reflexivity
            | exists [Progress 1%Z; Load; Confirm; WriteInput];
              eexists; reflexivity ].
  - intros He Hd. rewrite He, Hd. exists cs.
    destruct (ff_loaded env) eqn:Hl, (ff_load env) eqn:Hl',
      (GiB <? file_size env)%Z eqn:Hs, (confirmed env) eqn:Hc;
      try (destruct Hload; discriminate);
      try (destruct Hconfirm; discriminate);
      reflexivity.
Qed.

Lemma fallback_assumes_two_hours_witness :
  exists cs,
    (processVideoFFmpeg (engineWith probeOutputNoDuration threeFrames)).2
    = Normal cs.
Proof.
  destruct (fallback_assumes_two_hours
              (engineWith probeOutputNoDuration threeFrames)) as [_ H].
  - repeat split; try reflexivity;
      [right; reflexivity | left; vm_compute; discriminate].
  - repeat constructor.
  - apply H; reflexivity.
Defined.

(** * Further properties of the code *)

(** ** What the clusters hold *)

Lemma members_app l1 l2 : members (l1 ++ l2) = (members l1 + members l2)%Z.
Proof. induction l1 as [|k l1 IH]; simpl; [reflexivity|]. rewrite IH. lia. Qed.

Lemma scanClusters_members color clusters cs :
  scanClusters color clusters = Some cs -> members cs = (members clusters + 1)%Z.
Proof.
  revert cs. induction clusters as [|k rest IH]; intros cs H; [discriminate|].
  simpl in H. destruct (colorDistance_lt color (center k) THRESHOLD).
  - inversion H; subst. simpl. lia.
  - destruct (scanClusters color rest) as [rest'|]; [|discriminate].
    inversion H; subst. simpl. rewrite (IH rest' eq_refl). lia.
Qed.

Lemma addColor_members clusters color :
  members (addColor clusters color) = (members clusters + 1)%Z.
Proof.
  unfold addColor. destruct (scanClusters color clusters) as [cs|] eqn:E.
  - apply scanClusters_members in E. exact E.
  - rewrite members_app. simpl. lia.
Qed.

Lemma fold_addColor_members colors : forall clusters,
  members (fold_left addColor colors clusters)
  = (members clusters + Z.of_nat (length colors))%Z.
Proof.
  induction colors as [|c colors IH]; intros clusters; simpl fold_left.
  - simpl. lia.
  - rewrite IH, addColor_members. simpl length. lia.
Qed.

Lemma fold_addColor_count colors : forall clusters,
  Forall (fun k => (1 <= count k)%Z) clusters ->
  Forall (fun k => (1 <= count k)%Z) (fold_left addColor colors clusters).
Proof.
  induction colors as [|c colors IH]; intros clusters H; simpl; [exact H|].
  apply IH, addColor_count, H.
Qed.

Lemma addColor_length_le clusters color :
  (length (addColor clusters color) <= S (length clusters))%nat.
Proof.
  unfold addColor. destruct (scanClusters color clusters) as [cs|] eqn:E.
  - apply scanClusters_length in E. lia.
  - rewrite length_app. simpl. lia.
Qed.

Lemma fold_addColor_length_le colors : forall clusters,
  (length (fold_left addColor colors clusters)
   <= length clusters + length colors)%nat.
Proof.
  induction colors as [|c colors IH]; intros clusters; simpl; [lia|].
  specialize (IH (addColor clusters c)).
  pose proof (addColor_length_le clusters c). lia.
Qed.

(** X1. Every colour of the input is a member of exactly one cluster: the counts
    add up to the length of the input, no cluster is empty, and there are
    at most as many clusters as colours. *)
Theorem buildClusters_partition (colors : list Color) :
  members (buildClusters colors) = Z.of_nat (length colors) /\
  Forall (fun k => (1 <= count k)%Z) (buildClusters colors) /\
  (length (buildClusters colors) <= length colors)%nat.
Proof.
  unfold buildClusters. split; [|split].
  - rewrite fold_addColor_members. simpl. lia.
  - apply fold_addColor_count. constructor.
  - pose proof (fold_addColor_length_le colors []). simpl in *. lia.
Qed.

(** ** The range of the results *)

Lemma Math_round_inject_Z (z : Z) : Math_round (inject_Z z) = z.
Proof.
  unfold Math_round.
  assert (H : (z <= Qfloor (inject_Z z + (1#2)) < z + 1)%Z); [|lia].
  split.
  - rewrite <- (Qfloor_Z z) at 1. apply Qfloor_resp_le. lra.
  - rewrite Zlt_Qlt, inject_Z_plus. change (inject_Z 1) with 1.
    pose proof (Qfloor_le (inject_Z z + (1#2))). lra.
Qed.

Lemma Math_round_between (lo hi : Z) (x : Q) :
  inject_Z lo <= x <= inject_Z hi -> (lo <= Math_round x <= hi)%Z.
Proof.
  intros [Hlo Hhi].
  pose proof (Math_round_mono _ _ Hlo) as H1.
  pose proof (Math_round_mono _ _ Hhi) as H2.
  rewrite Math_round_inject_Z in H1, H2. lia.
Qed.

Lemma rounded_valid x y z :
  0 <= x <= 255 -> 0 <= y <= 255 -> 0 <= z <= 255 -> validColor (rounded x y z).
Proof.
  intros Hx Hy Hz. exists (Math_round x), (Math_round y), (Math_round z).
  split; [reflexivity|].
  repeat split; apply (Math_round_between 0 255); assumption.
Qed.

Lemma validColor_channelsIn c : validColor c -> channelsIn 0 255 c.
Proof.
  intros (zr & zg & zb & -> & Hr & Hg & Hb). unfold channelsIn; simpl.
  change 0 with (inject_Z 0). change 255 with (inject_Z 255).
  rewrite <- !Zle_Qle. lia.
Qed.

(** The running mean stays between the bounds of what it averages. *)
Lemma mean_step_between (lo hi m x n : Q) :
  1 <= n -> lo <= m <= hi -> lo <= x <= hi ->
  lo <= (m * (n - 1) + x) / n <= hi.
Proof.
  intros Hn [Hm1 Hm2] [Hx1 Hx2].
  assert (Hn1 : 0 <= n - 1) by lra.
  assert (H1 : lo * (n - 1) <= m * (n - 1)) by (apply Qmult_le_compat_r; assumption).
  assert (H2 : m * (n - 1) <= hi * (n - 1)) by (apply Qmult_le_compat_r; assumption).
  split.
  - apply Qle_shift_div_l; [lra|]. lra.
  - apply Qle_shift_div_r; [lra|]. lra.
Qed.

Lemma absorb_channelsIn lo hi k color :
  (1 <= count k)%Z ->
  channelsIn lo hi (center k) -> channelsIn lo hi color ->
  channelsIn lo hi (center (absorb k color)).
Proof.
  intros Hk (Hr & Hg & Hb) (Hr' & Hg' & Hb').
  set (n := inject_Z (count k + 1)).
  assert (Hn : 1 <= n).
  { unfold n. rewrite inject_Z_succ.
    assert (1 <= inject_Z (count k)); [|lra].
    change 1 with (inject_Z 1). rewrite <- Zle_Qle. exact Hk. }
  assert (Hn1 : inject_Z (count k + 1 - 1) == n - 1).
  { unfold n. rewrite Z.add_simpl_r, inject_Z_succ. ring. }
  unfold channelsIn, absorb; cbn [center r g b]. fold n. rewrite !Hn1.
  split; [|split]; apply mean_step_between; assumption.
Qed.

Lemma scanClusters_channelsIn lo hi color clusters cs :
  scanClusters color clusters = Some cs ->
  channelsIn lo hi color ->
  Forall (fun k => (1 <= count k)%Z /\ channelsIn lo hi (center k)) clusters ->
  Forall (fun k => (1 <= count k)%Z /\ channelsIn lo hi (center k)) cs.
Proof.
  revert cs. induction clusters as [|k rest IH]; intros cs H Hc Hall; [discriminate|].
  apply Forall_cons_1 in Hall. destruct Hall as [[Hk Hin] Hall]. simpl in H.
  destruct (colorDistance_lt color (center k) THRESHOLD).
  - inversion H; subst. constructor; [|exact Hall]. split.
    + simpl. lia.
    + apply absorb_channelsIn; assumption.
  - destruct (scanClusters color rest) as [rest'|]; [|discriminate].
    inversion H; subst. constructor; [split; assumption|]. apply IH; auto.
Qed.

Lemma fold_addColor_channelsIn lo hi colors : forall clusters,
  Forall (channelsIn lo hi) colors ->
  Forall (fun k => (1 <= count k)%Z /\ channelsIn lo hi (center k)) clusters ->
  Forall (fun k => (1 <= count k)%Z /\ channelsIn lo hi (center k))
         (fold_left addColor colors clusters).
Proof.
  induction colors as [|c colors IH]; intros clusters Hc Hall; simpl; [exact Hall|].
  apply Forall_cons_1 in Hc. destruct Hc as [Hc Hcs].
  apply IH; [exact Hcs|]. unfold addColor.
  destruct (scanClusters c clusters) as [cs|] eqn:E.
  - eapply scanClusters_channelsIn; eassumption.
  - apply Forall_app. split; [exact Hall|].
    constructor; [|constructor]. split; [simpl; lia | exact Hc].
Qed.

Lemma Qsum_between lo hi (l : list Q) :
  Forall (fun x => lo <= x <= hi) l ->
  lo * len l <= Qsum l <= hi * len l.
Proof.
  induction 1 as [|x l Hx _ IH].
  - change (len (@nil Q)) with 0. simpl. lra.
  - assert (E : len (x :: l) == len l + 1).
    { unfold len. simpl length.
      rewrite Nat2Z.inj_succ, <- Z.add_1_r, inject_Z_succ. reflexivity. }
    rewrite E. simpl Qsum. lra.
Qed.

Lemma mean_between lo hi (l : list Q) :
  l <> [] -> Forall (fun x => lo <= x <= hi) l -> lo <= mean l <= hi.
Proof.
  intros Hne H. pose proof (Qsum_between lo hi l H) as [H1 H2].
  pose proof (len_pos l Hne) as Hlen. unfold mean. split.
  - apply Qle_shift_div_l; assumption.
  - apply Qle_shift_div_r; assumption.
Qed.

Lemma average_between lo hi colors (f : Color -> Q) (total : Q) :
  total == Qsum (map f colors) -> colors <> [] ->
  (forall c, In c colors -> lo <= f c <= hi) ->
  lo <= total / len colors <= hi.
Proof.
  intros Ht Hne Hin. rewrite Ht.
  assert (E : len colors = len (map f colors))
    by (unfold len; rewrite length_map; reflexivity).
  rewrite E. apply mean_between.
  - destruct colors; [congruence | discriminate].
  - apply List.Forall_forall. intros x Hx. apply in_map_iff in Hx.
    destruct Hx as (c & <- & Hc). apply Hin, Hc.
Qed.

(** X2. On a non-empty array of valid colours (integer channels from 0 to 255)
    the three colours [analyzeColors] returns are valid colours as well. *)
Theorem analyzeColors_valid (colors : list Color) :
  colors <> [] ->
  Forall validColor colors ->
  exists res,
    analyzeColors colors = Normal (Some res) /\
    validColor (average res) /\ validColor (dominant res) /\
    validColor (least res).
Proof.
  intros Hne Hvalid.
  assert (Hin : Forall (channelsIn 0 255) colors).
  { apply (List.Forall_impl _ validColor_channelsIn Hvalid). }
  destruct (analyzeColors_nonempty colors Hne) as (first & rest & Hs & Hres).
  eexists. split; [exact Hres|].
  assert (Hcl : Forall (fun k => (1 <= count k)%Z /\ channelsIn 0 255 (center k))
                       (buildClusters colors)).
  { apply fold_addColor_channelsIn; [exact Hin | constructor]. }
  assert (Hsorted : forall k, In k (first :: rest) -> channelsIn 0 255 (center k)).
  { intros k Hk. rewrite <- Hs in Hk. apply sortByCount_In in Hk.
    rewrite List.Forall_forall in Hcl. apply Hcl, Hk. }
  destruct (totals_sums colors) as (Hr & Hg & Hb).
  cbn [average dominant least]. split; [|split].
  - rewrite List.Forall_forall in Hin.
    apply rounded_valid;
      [apply (average_between _ _ colors r) | apply (average_between _ _ colors g)
       | apply (average_between _ _ colors b)];
      try assumption; intros c Hc; apply (Hin c Hc).
  - destruct (Hsorted first (or_introl eq_refl)) as (H1 & H2 & H3).
    apply rounded_valid; assumption.
  - destruct (Hsorted (List.last (first :: rest) first)) as (H1 & H2 & H3).
    { apply last_In. discriminate. }
    apply rounded_valid; assumption.
Qed.

Lemma analyzeColors_valid_witness :
  exists res,
    analyzeColors [mkColor 10 20 30; mkColor 200 100 50] = Normal (Some res) /\
    validColor (average res) /\ validColor (dominant res) /\
    validColor (least res).
Proof.
  apply (analyzeColors_valid [mkColor 10 20 30; mkColor 200 100 50]).
  - discriminate.
  - constructor; [|constructor; [|constructor]].
    + exists 10%Z, 20%Z, 30%Z. split; [reflexivity|lia].
    + exists 200%Z, 100%Z, 50%Z. split; [reflexivity|lia].
Defined.

(** ** Ties *)

Lemma insertByCount_head (x d : Cluster) l :
  hd d (insertByCount count x l)
  = match l with
    | [] => x
    | y :: _ => if (count y <=? count x)%Z then x else y
    end.
Proof.
  destruct l as [|y l]; simpl; [reflexivity|].
  destruct (count y <=? count x)%Z; reflexivity.
Qed.

Lemma insertByCount_last (x d : Cluster) l :
  List.last (insertByCount count x l) d
  = if existsb (fun y => (count y <=? count x)%Z) l then List.last l d else x.
Proof.
  induction l as [|y l IH]; [reflexivity|].
  cbn [insertByCount existsb].
  destruct (count y <=? count x)%Z eqn:E; cbn [orb].
  - reflexivity.
  - change (List.last (y :: insertByCount count x l) d)
      with (match insertByCount count x l with
            | [] => y
            | _ :: _ => List.last (insertByCount count x l) d
            end).
    destruct (insertByCount count x l) as [|z l'] eqn:Ei.
    { destruct l; simpl in Ei; [discriminate|].
      destruct (count c <=? count x)%Z; discriminate. }
    rewrite IH.
    destruct (existsb (fun y0 => (count y0 <=? count x)%Z) l) eqn:Ex; [|reflexivity].
    destruct l as [|y' l'']; [discriminate | reflexivity].
Qed.

Lemma sortByCount_head clusters : forall first rest,
  sortByCount count clusters = first :: rest ->
  exists i, firstWithMostMembers clusters i first.
Proof.
  induction clusters as [|x l IH]; intros first rest Hs; [discriminate|].
  simpl in Hs.
  assert (Hh : hd x (insertByCount count x (sortByCount count l)) = first)
    by (rewrite Hs; reflexivity).
  rewrite insertByCount_head in Hh.
  destruct (sortByCount count l) as [|y l'] eqn:El.
  - subst first. assert (l = []).
    { destruct l as [|z l]; [reflexivity|]. exfalso.
      apply (sortByCount_nonempty count (z :: l)); [discriminate | exact El]. }
    subst l. exists O. split; [reflexivity|]. split.
    + intros [|j] k' Hj; simpl in Hj; [inversion Hj; lia|].
      destruct j; discriminate.
    + intros j k' Hj. lia.
  - destruct (IH y l' eq_refl) as (i & Hi & Hmax & Hbefore).
    destruct (count y <=? count x)%Z eqn:E.
    + apply Z.leb_le in E. subst first. exists O. split; [reflexivity|]. split.
      * intros [|j] k' Hj; simpl in Hj; [inversion Hj; lia|].
        specialize (Hmax j k' Hj). lia.
      * intros j k' Hj. lia.
    + apply Z.leb_gt in E. subst first. exists (S i). split; [exact Hi|]. split.
      * intros [|j] k' Hj; simpl in Hj; [inversion Hj; subst; lia|].
        apply (Hmax j k' Hj).
      * intros [|j] k' Hlt Hj; simpl in Hj; [inversion Hj; subst; lia|].
        apply (Hbefore j k'); [lia | exact Hj].
Qed.

Lemma sortByCount_last clusters : forall d,
  clusters <> [] ->
  exists i, lastWithFewestMembers clusters i
              (List.last (sortByCount count clusters) d).
Proof.
  induction clusters as [|x l IH]; intros d Hne; [congruence|].
  simpl sortByCount. rewrite insertByCount_last.
  destruct (existsb (fun y => (count y <=? count x)%Z) (sortByCount count l))
    eqn:Ex.
  - assert (Hl : l <> []).
    { intros ->. discriminate. }
    destruct (IH d Hl) as (i & Hi & Hmin & Hafter).
    apply existsb_exists in Ex. destruct Ex as (y & Hy & Hyx).
    apply Z.leb_le in Hyx. apply sortByCount_In in Hy.
    apply In_nth_error in Hy. destruct Hy as (jy & Hjy).
    pose proof (Hmin jy y Hjy) as Hmy.
    exists (S i). split; [exact Hi|]. split.
    + intros [|j] k' Hj; simpl in Hj; [inversion Hj; subst; lia|].
      apply (Hmin j k' Hj).
    + intros [|j] k' Hlt Hj; [lia|]. simpl in Hj.
      apply (Hafter j k'); [lia | exact Hj].
  - exists O. split; [reflexivity|].
    assert (Hall : forall j k', nth_error l j = Some k' -> (count x < count k')%Z).
    { intros j k' Hj. apply nth_error_In in Hj.
      apply (sortByCount_In count) in Hj.
      destruct (count k' <=? count x)%Z eqn:E; [|apply Z.leb_gt in E; exact E].
      assert (existsb (fun y => (count y <=? count x)%Z) (sortByCount count l) = true).
      { apply existsb_exists. exists k'. auto. }
      congruence. }
    split.
    + intros [|j] k' Hj; simpl in Hj; [inversion Hj; lia|].
      specialize (Hall j k' Hj). lia.
    + intros [|j] k' Hlt Hj; [lia|]. simpl in Hj. apply (Hall j k' Hj).
Qed.

(** X3. Among the clusters with the most members [dominant] comes from the one
    created first, and among those with the fewest [least] comes from the
    one created last: the sort keeps clusters of equal count in creation
    order. *)
Theorem analyzeColors_ties (colors : list Color) :
  colors <> [] ->
  exists res i kd j kl,
    analyzeColors colors = Normal (Some res) /\
    firstWithMostMembers (buildClusters colors) i kd /\
    lastWithFewestMembers (buildClusters colors) j kl /\
    dominant res = rounded (r (center kd)) (g (center kd)) (b (center kd)) /\
    least res = rounded (r (center kl)) (g (center kl)) (b (center kl)).
Proof.
  intros Hne.
  destruct (analyzeColors_nonempty colors Hne) as (first & rest & Hs & Hres).
  destruct (sortByCount_head _ _ _ Hs) as (i & Hi).
  destruct (sortByCount_last (buildClusters colors) first
              (buildClusters_nonempty colors Hne)) as (j & Hj).
  rewrite Hs in Hj.
  eexists _, i, first, j, (List.last (first :: rest) first).
  split; [exact Hres|]. split; [exact Hi|]. split; [exact Hj|].
  split; reflexivity.
Qed.

Lemma analyzeColors_ties_witness :
  exists res,
    analyzeColors [mkColor 0 0 0; mkColor 200 0 0; mkColor 0 200 0]
    = Normal (Some res) /\
    dominant res = mkColor 0 0 0 /\ least res = mkColor 0 200 0.
Proof.
  destruct (analyzeColors_ties
              [mkColor 0 0 0; mkColor 200 0 0; mkColor 0 200 0])
    as (res & i & kd & j & kl & Hres & _); [discriminate|].
  exists res. split; [exact Hres|].
  injection Hres as <-. split; reflexivity.
Defined.

(** X4. [analyzeColors] returns [null] for an empty array and for no other:
    every non-empty array gets a result, and the call never throws (after
    the clustering there is always a first cluster to read). *)
Theorem analyzeColors_null_iff_empty (colors : list Color) :
  (analyzeColors colors = Normal None <-> colors = []) /\
  (colors <> [] -> exists res, analyzeColors colors = Normal (Some res)) /\
  (forall e, analyzeColors colors <> Throw e).
Proof.
  destruct colors as [|c colors].
  - split; [split; reflexivity|]. split; [congruence | discriminate].
  - destruct (analyzeColors_nonempty (c :: colors)) as (f & rest & _ & H);
      [discriminate|].
    rewrite H. split; [split; discriminate|].
    split; [eexists; reflexivity | discriminate].
Qed.

(** ** The order of the input *)

Lemma Qsum_Permutation (l l' : list Q) : Permutation l l' -> Qsum l == Qsum l'.
Proof.
  induction 1; simpl; lra.
Qed.

(** X5. [average] does not depend on the order of the colours. *)
Theorem analyzeColors_average_permutation (colors colors' : list Color) :
  colors <> [] ->
  Permutation colors colors' ->
  exists res res',
    analyzeColors colors = Normal (Some res) /\
    analyzeColors colors' = Normal (Some res') /\
    average res = average res'.
Proof.
  intros Hne Hperm.
  assert (Hne' : colors' <> []).
  { intros ->. apply Permutation_sym, Permutation_nil in Hperm. congruence. }
  destruct (analyzeColors_nonempty colors Hne) as (f1 & r1 & _ & H1).
  destruct (analyzeColors_nonempty colors' Hne') as (f2 & r2 & _ & H2).
  eexists _, _. split; [exact H1|]. split; [exact H2|].
  cbn [average].
  destruct (totals_sums colors) as (Hr & Hg & Hb).
  destruct (totals_sums colors') as (Hr' & Hg' & Hb').
  assert (Hlen : len colors = len colors').
  { unfold len. rewrite (Permutation_length Hperm). reflexivity. }
  unfold rounded.
  rewrite Hr, Hg, Hb, Hr', Hg', Hb', Hlen.
  rewrite (Qsum_Permutation _ _ (Permutation_map r Hperm)).
  rewrite (Qsum_Permutation _ _ (Permutation_map g Hperm)).
  rewrite (Qsum_Permutation _ _ (Permutation_map b Hperm)).
  reflexivity.
Qed.

Lemma analyzeColors_average_permutation_witness :
  exists res res',
    analyzeColors [mkColor 10 20 30; mkColor 200 100 50] = Normal (Some res) /\
    analyzeColors [mkColor 200 100 50; mkColor 10 20 30] = Normal (Some res') /\
    average res = average res'.
Proof.
  apply (analyzeColors_average_permutation
           [mkColor 10 20 30; mkColor 200 100 50]
           [mkColor 200 100 50; mkColor 10 20 30]).
  - discriminate.
  - apply perm_swap.
Defined.

(** ** getAverageColor *)

Lemma sumPixels_imageOf pixels : forall sr sg sb,
  sumPixels (imageOf pixels) (sr, sg, sb)
  = (sr + fold_right Z.add 0 (map red pixels),
     sg + fold_right Z.add 0 (map green pixels),
     sb + fold_right Z.add 0 (map blue pixels))%Z.
Proof.
  induction pixels as [|p pixels IH]; intros sr sg sb.
  - simpl. rewrite !Z.add_0_r. reflexivity.
  - change (imageOf (p :: pixels))
      with (red p :: green p :: blue p :: alpha p :: imageOf pixels).
    cbn [sumPixels]. rewrite IH. simpl. f_equal; [f_equal|]; lia.
Qed.

Lemma len_imageOf pixels : len (imageOf pixels) == 4 * len pixels.
Proof.
  unfold len. induction pixels as [|p pixels IH].
  - reflexivity.
  - change (imageOf (p :: pixels))
      with (red p :: green p :: blue p :: alpha p :: imageOf pixels).
    simpl length. rewrite !Nat2Z.inj_succ, <- !Z.add_1_r, !inject_Z_succ, IH.
    ring.
Qed.

Lemma Qsum_inject_Z (l : list Z) :
  Qsum (map inject_Z l) == inject_Z (fold_right Z.add 0%Z l).
Proof.
  induction l as [|z l IH]; simpl; [reflexivity|].
  rewrite inject_Z_plus, IH. reflexivity.
Qed.

Lemma channel_mean (f : Pixel -> Z) pixels :
  pixels <> [] ->
  inject_Z (fold_right Z.add 0%Z (map f pixels)) / (len (imageOf pixels) / 4)
  == mean (map (fun p => inject_Z (f p)) pixels).
Proof.
  intros Hne. unfold mean.
  assert (E : len (map (fun p => inject_Z (f p)) pixels) = len pixels)
    by (unfold len; rewrite length_map; reflexivity).
  rewrite E, len_imageOf, <- Qsum_inject_Z, map_map.
  pose proof (len_pos pixels Hne). field. lra.
Qed.

Lemma getAverageColor_imageOf (pixels : list Pixel) :
  pixels <> [] ->
  getAverageColor (imageOf pixels)
  = rounded (mean (map (fun p => inject_Z (red p)) pixels))
            (mean (map (fun p => inject_Z (green p)) pixels))
            (mean (map (fun p => inject_Z (blue p)) pixels)).
Proof.
  intros Hne. unfold getAverageColor.
  rewrite sumPixels_imageOf. cbn iota beta. rewrite !Z.add_0_l.
  unfold rounded.
  rewrite (channel_mean red), (channel_mean green), (channel_mean blue)
    by exact Hne.
  reflexivity.
Qed.

Lemma mean_bytes (pixels : list Pixel) (f : Pixel -> Z) :
  pixels <> [] ->
  (forall p, In p pixels -> isByte (f p)) ->
  0 <= mean (map (fun p => inject_Z (f p)) pixels) <= 255.
Proof.
  intros Hne Hf. apply mean_between.
  - destruct pixels; [congruence | discriminate].
  - apply List.Forall_forall. intros x Hx. apply in_map_iff in Hx.
    destruct Hx as (p & <- & Hp). specialize (Hf p Hp). unfold isByte in Hf.
    change 0 with (inject_Z 0). change 255 with (inject_Z 255).
    rewrite <- !Zle_Qle. exact Hf.
Qed.

(** X6. [getAverageColor] returns, for each of the channels R, G and B, the mean
    over all pixels rounded by [Math.round]; the alpha bytes play no part,
    and each channel is within one half of the mean of its bytes. *)
Theorem getAverageColor_mean (pixels : list Pixel) :
  pixels <> [] ->
  let rs := map (fun p => inject_Z (red p)) pixels in
  let gs := map (fun p => inject_Z (green p)) pixels in
  let bs := map (fun p => inject_Z (blue p)) pixels in
  getAverageColor (imageOf pixels) = rounded (mean rs) (mean gs) (mean bs) /\
  Qabs (r (getAverageColor (imageOf pixels)) - mean rs) <= 1#2 /\
  Qabs (g (getAverageColor (imageOf pixels)) - mean gs) <= 1#2 /\
  Qabs (b (getAverageColor (imageOf pixels)) - mean bs) <= 1#2.
Proof.
  intros Hne rs gs bs. rewrite (getAverageColor_imageOf pixels Hne).
  fold rs gs bs. split; [reflexivity|].
  unfold rounded. cbn [r g b].
  split; [|split]; apply Math_round_nearest.
Qed.

Lemma getAverageColor_mean_witness :
  getAverageColor (imageOf [(10, 20, 30, 255); (20, 30, 41, 0)]%Z)
  = mkColor 15 25 36.
Proof.
  destruct (getAverageColor_mean [(10, 20, 30, 255); (20, 30, 41, 0)]%Z)
    as [H _]; [discriminate|].
  rewrite H. reflexivity.
Defined.

(** X7. Whatever the image, as long as it has a pixel and its bytes are bytes,
    the colour [getAverageColor] returns has integer channels from 0 to
    255. *)
Theorem getAverageColor_valid (pixels : list Pixel) :
  pixels <> [] ->
  Forall (fun p => isByte (red p) /\ isByte (green p) /\ isByte (blue p)) pixels ->
  validColor (getAverageColor (imageOf pixels)).
Proof.
  intros Hne Hbytes. rewrite (getAverageColor_imageOf pixels Hne).
  rewrite List.Forall_forall in Hbytes.
  apply rounded_valid; apply mean_bytes; try exact Hne;
    intros p Hp; apply (Hbytes p Hp).
Qed.

Lemma getAverageColor_valid_witness :
  validColor (getAverageColor (imageOf [(10, 20, 30, 255); (20, 30, 41, 0)]%Z)).
Proof.
  apply (getAverageColor_valid [(10, 20, 30, 255); (20, 30, 41, 0)]%Z).
  - discriminate.
  - constructor; [|constructor; [|constructor]];
      unfold isByte; cbn [red green blue fst snd]; lia.
Defined.

(** ** colorDistance *)

Lemma sqdist_sym c1 c2 : sqdist c1 c2 == sqdist c2 c1.
Proof. unfold sqdist. ring. Qed.

Lemma Q2R_sqdist c1 c2 :
  Q2R (sqdist c1 c2)
  = ((Q2R (r c1) - Q2R (r c2)) * (Q2R (r c1) - Q2R (r c2))
     + (Q2R (g c1) - Q2R (g c2)) * (Q2R (g c1) - Q2R (g c2))
     + (Q2R (b c1) - Q2R (b c2)) * (Q2R (b c1) - Q2R (b c2)))%R.
Proof.
  unfold sqdist. rewrite !Qpow2.
  rewrite !Q2R_plus, !Q2R_mult, !Q2R_minus. reflexivity.
Qed.

Lemma cauchy_schwarz3 (x1 x2 x3 y1 y2 y3 : R) :
  ((x1 * y1 + x2 * y2 + x3 * y3) * (x1 * y1 + x2 * y2 + x3 * y3)
   <= (x1 * x1 + x2 * x2 + x3 * x3) * (y1 * y1 + y2 * y2 + y3 * y3))%R.
Proof.
  pose proof (Rle_0_sqr (x1 * y2 - x2 * y1)) as H1.
  pose proof (Rle_0_sqr (x1 * y3 - x3 * y1)) as H2.
  pose proof (Rle_0_sqr (x2 * y3 - x3 * y2)) as H3.
  unfold Rsqr in *. Lra.nra.
Qed.

Lemma minkowski3 (x1 x2 x3 y1 y2 y3 : R) :
  (sqrt ((x1 + y1) * (x1 + y1) + (x2 + y2) * (x2 + y2) + (x3 + y3) * (x3 + y3))
   <= sqrt (x1 * x1 + x2 * x2 + x3 * x3) + sqrt (y1 * y1 + y2 * y2 + y3 * y3))%R.
Proof.
  set (X := (x1 * x1 + x2 * x2 + x3 * x3)%R).
  set (Y := (y1 * y1 + y2 * y2 + y3 * y3)%R).
  set (P := (x1 * y1 + x2 * y2 + x3 * y3)%R).
  assert (HX : (0 <= X)%R) by (unfold X; Lra.nra).
  assert (HY : (0 <= Y)%R) by (unfold Y; Lra.nra).
  assert (HCS : (P * P <= X * Y)%R) by apply cauchy_schwarz3.
  assert (HP : (P <= sqrt X * sqrt Y)%R).
  { rewrite <- sqrt_mult by assumption.
    destruct (Rle_lt_dec P 0) as [Hneg|Hpos].
    - pose proof (sqrt_pos (X * Y)). Lra.lra.
    - rewrite <- (sqrt_square P) by Lra.lra. apply sqrt_le_1_alt. exact HCS. }
  pose proof (sqrt_pos X) as HsX. pose proof (sqrt_pos Y) as HsY.
  rewrite <- (sqrt_square (sqrt X + sqrt Y)) by Lra.lra.
  apply sqrt_le_1_alt.
  pose proof (sqrt_sqrt X HX). pose proof (sqrt_sqrt Y HY).
  replace ((x1 + y1) * (x1 + y1) + (x2 + y2) * (x2 + y2) + (x3 + y3) * (x3 + y3))%R
    with (X + Y + 2 * P)%R by (unfold X, Y, P; ring).
  Lra.nra.
Qed.


(** ** rgbToHex *)

Example rgbToHex_examples :
  rgbToHex 255 0 128 = "#FF0080"%string /\
  rgbToHex 0 0 0 = "#000000"%string /\
  rgbToHex 18 171 9 = "#12AB09"%string /\
  rgbToCss 18 171 9 = "rgb(18, 171, 9)"%string.
Proof. repeat split; vm_compute; reflexivity. Qed.

Lemma digits_step (fuel : nat) (m d : Z) :
  (1 <= m)%Z -> (0 <= d < 16)%Z ->
  digits 16 (S fuel) (16 * m + d)
  = (digits 16 fuel m ++ String (digitChar d) EmptyString)%string.
Proof.
  intros Hm Hd. cbn [digits].
  assert (E : (16 * m + d <? 16)%Z = false) by (apply Z.ltb_ge; lia).
  rewrite E.
  replace ((16 * m + d) / 16)%Z with m
    by (apply (Z.div_unique _ 16 m d); lia).
  replace ((16 * m + d) mod 16)%Z with d
    by (apply (Z.mod_unique _ 16 m d); lia).
  reflexivity.
Qed.

Lemma toUpperCase_app (s1 s2 : string) :
  toUpperCase (s1 ++ s2) = (toUpperCase s1 ++ toUpperCase s2)%string.
Proof. induction s1 as [|c s1 IH]; simpl; [reflexivity|]. rewrite IH. reflexivity. Qed.

Lemma shiftLeft_byte (x k : Z) :
  (0 <= x <= 255)%Z -> (0 <= k <= 16)%Z -> shiftLeft x k = (x * 2 ^ k)%Z.
Proof.
  intros Hx Hk. unfold shiftLeft, ToInt32.
  rewrite (Z.mod_small x) by lia.
  assert (E : (x <? 2 ^ 31)%Z = true) by (apply Z.ltb_lt; lia). rewrite E.
  rewrite (Z.mod_small k) by lia.
  rewrite Z.shiftl_mul_pow2 by lia.
  assert (Hp : (0 < 2 ^ k <= 2 ^ 16)%Z).
  { split; [apply Z.pow_pos_nonneg; lia | apply Z.pow_le_mono_r; lia]. }
  assert (Hb : (0 <= x * 2 ^ k < 2 ^ 31)%Z) by nia.
  rewrite Z.mod_small by lia.
  assert (E' : (x * 2 ^ k <? 2 ^ 31)%Z = true) by (apply Z.ltb_lt; lia).
  rewrite E'. reflexivity.
Qed.

Lemma hex_number (r g b : Z) :
  (0 <= r <= 255)%Z -> (0 <= g <= 255)%Z -> (0 <= b <= 255)%Z ->
  (shiftLeft 1 24 + shiftLeft r 16 + shiftLeft g 8 + b
   = 2 ^ 24 + r * 2 ^ 16 + g * 2 ^ 8 + b)%Z.
Proof.
  intros Hr Hg Hb. rewrite (shiftLeft_byte r 16), (shiftLeft_byte g 8) by lia.
  reflexivity.
Qed.

Lemma hex_digits (r g b : Z) :
  (0 <= r <= 255)%Z -> (0 <= g <= 255)%Z -> (0 <= b <= 255)%Z ->
  Number_toString 16 (2 ^ 24 + r * 2 ^ 16 + g * 2 ^ 8 + b)
  = String "1"
      (String (digitChar (r / 16)) (String (digitChar (r mod 16))
      (String (digitChar (g / 16)) (String (digitChar (g mod 16))
      (String (digitChar (b / 16)) (String (digitChar (b mod 16))
       EmptyString)))))).
Proof.
  intros Hr Hg Hb.
  set (n := (2 ^ 24 + r * 2 ^ 16 + g * 2 ^ 8 + b)%Z).
  assert (Hn : (2 ^ 24 <= n < 2 ^ 25)%Z) by (unfold n; lia).
  unfold Number_toString.
  assert (E : (n <? 0)%Z = false) by (apply Z.ltb_ge; lia). rewrite E.
  rewrite (Z.log2_unique n 24) by lia.
  change (S (Z.to_nat 24)) with 25%nat.
  pose proof (Z.div_mod r 16 ltac:(lia)) as Er.
  pose proof (Z.div_mod g 16 ltac:(lia)) as Eg.
  pose proof (Z.div_mod b 16 ltac:(lia)) as Eb.
  pose proof (Z.mod_pos_bound r 16 ltac:(lia)) as Hr0.
  pose proof (Z.mod_pos_bound g 16 ltac:(lia)) as Hg0.
  pose proof (Z.mod_pos_bound b 16 ltac:(lia)) as Hb0.
  assert (Hr1 : (0 <= r / 16 < 16)%Z)
    by (split; [apply Z.div_pos; lia | apply Z.div_lt_upper_bound; lia]).
  assert (Hg1 : (0 <= g / 16 < 16)%Z)
    by (split; [apply Z.div_pos; lia | apply Z.div_lt_upper_bound; lia]).
  assert (Hb1 : (0 <= b / 16 < 16)%Z)
    by (split; [apply Z.div_pos; lia | apply Z.div_lt_upper_bound; lia]).
  replace n with
    (16 * (16 * (16 * (16 * (16 * (16 * 1 + r / 16) + r mod 16) + g / 16)
                 + g mod 16) + b / 16) + b mod 16)%Z by (unfold n; lia).
  rewrite !digits_step by lia.
  reflexivity.
Qed.

Lemma upper_digit (d : Z) :
  (0 <= d < 16)%Z -> hexValue (upperChar (digitChar d)) = Some d.
Proof.
  intros Hd.
  assert (H : (d = 0 \/ d = 1 \/ d = 2 \/ d = 3 \/ d = 4 \/ d = 5 \/ d = 6
               \/ d = 7 \/ d = 8 \/ d = 9 \/ d = 10 \/ d = 11 \/ d = 12
               \/ d = 13 \/ d = 14 \/ d = 15)%Z) by lia.
  repeat (destruct H as [-> | H]; [reflexivity|]). subst d. reflexivity.
Qed.

Lemma hexPair_hexByte (z : Z) :
  (0 <= z <= 255)%Z ->
  hexPair (upperChar (digitChar (z / 16))) (upperChar (digitChar (z mod 16)))
  = Some z.
Proof.
  intros Hz. unfold hexPair.
  rewrite !upper_digit.
  - f_equal. pose proof (Z.div_mod z 16 ltac:(lia)). lia.
  - apply Z.mod_pos_bound. lia.
  - split; [apply Z.div_pos; lia | apply Z.div_lt_upper_bound; lia].
Qed.

Lemma parseHex_chars (r1 r0 g1 g0 b1 b0 : ascii) :
  parseHex (String "#" (String r1 (String r0 (String g1 (String g0
             (String b1 (String b0 EmptyString)))))))
  = match hexPair r1 r0, hexPair g1 g0, hexPair b1 b0 with
    | Some r, Some g, Some b => Some (r, g, b)
    | _, _, _ => None
    end.
Proof. reflexivity. Qed.

Lemma rgbToHex_bytes (r g b : Z) :
  (0 <= r <= 255)%Z -> (0 <= g <= 255)%Z -> (0 <= b <= 255)%Z ->
  rgbToHex r g b = String "#" (hexByte r ++ hexByte g ++ hexByte b)%string.
Proof.
  intros Hr Hg Hb. unfold rgbToHex.
  rewrite hex_number, hex_digits by assumption. reflexivity.
Qed.

(** X9. For channels from 0 to 255 [rgbToHex] returns [#] followed by six
    upper-case hexadecimal digits, two for each of R, G and B in this
    order. *)
Theorem rgbToHex_format (r g b : Z) :
  isByte r -> isByte g -> isByte b ->
  rgbToHex r g b = String "#" (hexByte r ++ hexByte g ++ hexByte b)%string /\
  String.length (rgbToHex r g b) = 7%nat.
Proof.
  intros Hr Hg Hb. rewrite rgbToHex_bytes by assumption.
  split; reflexivity.
Qed.

Lemma rgbToHex_format_witness : rgbToHex 18 171 9 = "#12AB09"%string.
Proof.
  destruct (rgbToHex_format 18 171 9) as [H _];
    [unfold isByte; lia | unfold isByte; lia | unfold isByte; lia |].
  rewrite H. reflexivity.
Defined.

(** X10. The colour can be read back from the string [rgbToHex] returns, so
    different colours get different strings. *)
Theorem rgbToHex_round_trip (r g b : Z) :
  isByte r -> isByte g -> isByte b ->
  parseHex (rgbToHex r g b) = Some (r, g, b).
Proof.
  intros Hr Hg Hb. rewrite rgbToHex_bytes by assumption.
  unfold hexByte. change (parseHex (String "#"
    (String (upperChar (digitChar (r / 16)))
    (String (upperChar (digitChar (r mod 16)))
    (String (upperChar (digitChar (g / 16)))
    (String (upperChar (digitChar (g mod 16)))
    (String (upperChar (digitChar (b / 16)))
    (String (upperChar (digitChar (b mod 16))) EmptyString)))))))
    = Some (r, g, b)).
  rewrite parseHex_chars.
  rewrite !hexPair_hexByte by assumption. reflexivity.
Qed.

Lemma rgbToHex_round_trip_witness :
  parseHex (rgbToHex 255 0 128) = Some (255, 0, 128)%Z.
Proof.
  apply (rgbToHex_round_trip 255 0 128); unfold isByte; lia.
Defined.

(** X11. The labels of the swatches: for a non-empty array of valid colours, each
    of the three colours [analyzeColors] returns has integer channels for
    which [rgbToHex] gives a string of seven characters that reads back as
    that colour. *)
Theorem swatch_labels (colors : list Color) :
  colors <> [] ->
  Forall validColor colors ->
  exists res,
    analyzeColors colors = Normal (Some res) /\
    forall c, c = average res \/ c = dominant res \/ c = least res ->
      exists zr zg zb,
        c = mkColor (inject_Z zr) (inject_Z zg) (inject_Z zb) /\
        String.length (rgbToHex zr zg zb) = 7%nat /\
        parseHex (rgbToHex zr zg zb) = Some (zr, zg, zb).
Proof.
  intros Hne Hvalid.
  assert (Hin : Forall (channelsIn 0 255) colors).
  { apply (List.Forall_impl _ validColor_channelsIn Hvalid). }
  destruct (analyzeColors_nonempty colors Hne) as (first & rest & Hs & Hres).
  eexists. split; [exact Hres|].
  assert (Hlabel : forall x y z,
            0 <= x <= 255 -> 0 <= y <= 255 -> 0 <= z <= 255 ->
            exists zr zg zb,
              rounded x y z = mkColor (inject_Z zr) (inject_Z zg) (inject_Z zb) /\
              String.length (rgbToHex zr zg zb) = 7%nat /\
              parseHex (rgbToHex zr zg zb) = Some (zr, zg, zb)).
  { intros x y z Hx Hy Hz.
    exists (Math_round x), (Math_round y), (Math_round z).
    pose proof (Math_round_between 0 255 x Hx).
    pose proof (Math_round_between 0 255 y Hy).
    pose proof (Math_round_between 0 255 z Hz).
    split; [reflexivity|].
    rewrite rgbToHex_bytes by assumption. split; [reflexivity|].
    rewrite <- rgbToHex_bytes by assumption.
    unfold rgbToHex. rewrite hex_number, hex_digits by assumption.
    cbn [slice1 toUpperCase]. rewrite parseHex_chars.
    rewrite !hexPair_hexByte by assumption. reflexivity. }
  assert (Hcl : Forall (fun k => (1 <= count k)%Z /\ channelsIn 0 255 (center k))
                       (buildClusters colors)).
  { apply fold_addColor_channelsIn; [exact Hin | constructor]. }
  assert (Hsorted : forall k, In k (first :: rest) -> channelsIn 0 255 (center k)).
  { intros k Hk. rewrite <- Hs in Hk. apply sortByCount_In in Hk.
    rewrite List.Forall_forall in Hcl. apply Hcl, Hk. }
  destruct (totals_sums colors) as (Hr & Hg & Hb).
  rewrite List.Forall_forall in Hin.
  intros c [-> | [-> | ->]]; cbn [average dominant least].
  - apply Hlabel;
      [apply (average_between _ _ colors r) | apply (average_between _ _ colors g)
       | apply (average_between _ _ colors b)];
      try assumption; intros c Hc; apply (Hin c Hc).
  - destruct (Hsorted first (or_introl eq_refl)) as (H1 & H2 & H3).
    apply Hlabel; assumption.
  - destruct (Hsorted (List.last (first :: rest) first)) as (H1 & H2 & H3).
    { apply last_In. discriminate. }
    apply Hlabel; assumption.
Qed.

Lemma swatch_labels_witness :
  exists res,
    analyzeColors [mkColor 10 20 30; mkColor 200 100 50] = Normal (Some res) /\
    exists zr zg zb,
      dominant res = mkColor (inject_Z zr) (inject_Z zg) (inject_Z zb) /\
      String.length (rgbToHex zr zg zb) = 7%nat.
Proof.
  destruct (swatch_labels [mkColor 10 20 30; mkColor 200 100 50])
    as (res & Hres & Hlabels).
  - discriminate.
  - constructor; [|constructor; [|constructor]].
    + exists 10%Z, 20%Z, 30%Z. split; [reflexivity|lia].
    + exists 200%Z, 100%Z, 50%Z. split; [reflexivity|lia].
  - exists res. split; [exact Hres|].
    destruct (Hlabels (dominant res)) as (zr & zg & zb & Hc & Hlen & _);
      [right; left; reflexivity|].
    exists zr, zg, zb. split; [exact Hc | exact Hlen].
Defined.

(** ** The seeks of the native path *)

Lemma seekTime_le_end (d : Q) (i : nat) : seekTime d i <= d - (1#10).
Proof. unfold seekTime. apply Q.le_min_r. Qed.

Lemma seekTime_mono (d : Q) (i j : nat) :
  0 <= d -> (i <= j)%nat -> seekTime d i <= seekTime d j.
Proof.
  intros Hd Hij. unfold seekTime. apply Q.min_le_compat_r.
  rewrite !(Qmult_comm (d / inject_Z (Z.of_nat FRAME_COUNT))).
  apply Qmult_le_compat_r.
  - rewrite <- Zle_Qle. lia.
  - apply Qle_shift_div_l; [reflexivity|]. lra.
Qed.

Lemma seekTime_unclamped (d : Q) (i : nat) :
  24 <= d -> (i < FRAME_COUNT)%nat ->
  seekTime d i == inject_Z (Z.of_nat i) * (d / 240).
Proof.
  intros Hd Hi. unfold seekTime.
  change (inject_Z (Z.of_nat FRAME_COUNT)) with 240.
  rewrite Q.min_l; [ring|].
  assert (Hi' : inject_Z (Z.of_nat i) <= 239).
  { change 239 with (inject_Z 239). rewrite <- Zle_Qle.
    unfold FRAME_COUNT in Hi. lia. }
  assert (Hq : 0 <= d / 240) by (apply Qle_shift_div_l; [reflexivity | lra]).
  assert (H : d / 240 * inject_Z (Z.of_nat i) <= d / 240 * 239).
  { rewrite !(Qmult_comm (d / 240)). apply Qmult_le_compat_r; assumption. }
  assert (E : d / 240 * 239 == d - d / 240) by field.
  assert (Hd' : 1 # 10 <= d / 240) by (apply Qle_shift_div_l; [reflexivity | lra]).
  lra.
Qed.

(** X12. In a video of at least 24 seconds no target is clamped: frame [i] is
    sought at [i] times the 240th part of the duration, so the targets are
    evenly spaced and strictly increasing. *)
Theorem seekTime_even (d : Q) (i j : nat) :
  24 <= d -> (i < j)%nat -> (j < FRAME_COUNT)%nat ->
  seekTime d i == inject_Z (Z.of_nat i) * (d / 240) /\
  seekTime d j == inject_Z (Z.of_nat j) * (d / 240) /\
  seekTime d i < seekTime d j.
Proof.
  intros Hd Hij Hj.
  rewrite (seekTime_unclamped d i), (seekTime_unclamped d j) by (assumption || lia).
  split; [reflexivity|]. split; [reflexivity|].
  assert (Hq : 0 < d / 240) by (apply Qlt_shift_div_l; [reflexivity | lra]).
  rewrite !(Qmult_comm _ (d / 240)). apply Qmult_lt_l; [exact Hq|].
  rewrite <- Zlt_Qlt. lia.
Qed.

Lemma seekTime_even_witness :
  seekTime 120 1 == 1 * (120 / 240) /\
  seekTime 120 2 == 2 * (120 / 240) /\
  seekTime 120 1 < seekTime 120 2.
Proof.
  apply (seekTime_even 120 1 2).
  - discriminate.
  - lia.
  - apply Nat.ltb_lt. reflexivity.
Defined.

(** X13. No target lies in the last tenth of a second, and the targets never
    decrease; the last frame of a video shorter than 24 seconds is sought at
    the duration minus a tenth, and in a video shorter than a tenth of a
    second every target is negative. *)
Theorem seekTime_clamped (d : Q) (i j : nat) :
  0 < d ->
  seekTime d i <= d - (1#10) /\
  ((i <= j)%nat -> seekTime d i <= seekTime d j) /\
  (d <= 24 -> seekTime d (FRAME_COUNT - 1) == d - (1#10)) /\
  (d < 1#10 -> seekTime d i < 0).
Proof.
  intros Hd. split; [apply seekTime_le_end|]. split; [|split].
  - intros Hij. apply seekTime_mono; [lra | exact Hij].
  - intros H24. unfold seekTime.
    change (inject_Z (Z.of_nat FRAME_COUNT)) with 240.
    change (inject_Z (Z.of_nat (FRAME_COUNT - 1))) with 239.
    apply Q.min_r.
    assert (E : d / 240 * 239 == d - d / 240) by field.
    assert (Hd' : d / 240 <= 1 # 10) by (apply Qle_shift_div_r; [reflexivity | lra]).
    lra.
  - intros Hs. pose proof (seekTime_le_end d i). lra.
Qed.

Lemma seekTime_clamped_witness :
  seekTime 12 (FRAME_COUNT - 1) == 12 - (1#10).
Proof.
  destruct (seekTime_clamped 12 0 1) as (_ & _ & H & _); [reflexivity|].
  apply H. discriminate.
Defined.

(** Induction over the states the native handlers reach. *)
Lemma native_fold_ind (P : Native -> Prop) :
  (forall s e, nativeInv s -> P s -> P (dispatch s e)) ->
  forall events s, nativeInv s -> P s -> P (fold_left dispatch events s).
Proof.
  intros Hstep. induction events as [|e events IH]; intros s Hinv HP; simpl.
  - exact HP.
  - apply IH; [apply nativeInv_dispatch, Hinv | apply Hstep; assumption].
Qed.

Lemma seeksOf_snoc_other l a :
  (forall t, a <> Seek t) -> seeksOf (l ++ [a]) = seeksOf l.
Proof.
  intros Ha. rewrite seeksOf_app. destruct a; simpl; try apply app_nil_r.
  exfalso. apply (Ha time). reflexivity.
Qed.

Lemma seek_step (q : Q) s e :
  nativeInv s ->
  started s = true /\ duration s = q /\ seekInv s ->
  started (dispatch s e) = true /\ duration (dispatch s e) = q /\
  seekInv (dispatch s e).
Proof.
  intros Hinv (Hst & Hd & Hseek). unfold dispatch.
  destruct (promise s) eqn:Hp; try (split; [|split]; assumption).
  unfold seekInv, seeksRequested in *.
  destruct e as [|d|frame|].
  - unfold onerror, settleWith, cleanup; native_fields.
    rewrite seeksOf_snoc_other by discriminate. auto.
  - rewrite Hst. auto.
  - destruct (seeking s) eqn:Hsk; [|rewrite Hsk; auto].
    unfold onseeked; native_fields.
    rewrite seeksOf_snoc_other by discriminate. auto.
  - destruct (timer s) eqn:Htm; [|auto].
    assert (Hsk : seeking s = false).
    { destruct (seeking s) eqn:E; [|reflexivity].
      pose proof (inv_exclusive s Hinv E). congruence. }
    rewrite Hsk in Hseek. unfold ontimeout, processFrame; native_fields.
    destruct (Nat.leb_spec FRAME_COUNT (currentFrame s)).
    + unfold settleWith, cleanup; native_fields. rewrite Hsk.
      rewrite seeksOf_snoc_other by discriminate. auto.
    + native_fields. rewrite seeksOf_app, seq_S, map_app, Hseek, Hd.
      split; [exact Hst|]. split; reflexivity.
Qed.

(** X14. Once the metadata have loaded with a usable duration [d], the native
    path seeks frame after frame: the seeks requested so far are those of
    the frames 0, 1, 2, ... in this order, each at [seekTime d]; there are
    never more than [FRAME_COUNT] of them, and exactly [FRAME_COUNT] when the
    promise resolves. *)
Theorem native_seek_targets (d : JSNumber) (events : list VideoEvent) :
  unusable d = false ->
  let s := processVideoNative (EvLoadedMetadata d :: events) in
  seeksOf (log s) = map (seekTime (valueOf d)) (seq 0 (seeksRequested s)) /\
  (seeksRequested s <= FRAME_COUNT)%nat /\
  (forall cs, promise s = Resolved cs -> seeksRequested s = FRAME_COUNT).
Proof.
  intros Hd s.
  set (s1 := dispatch initial (EvLoadedMetadata d)).
  assert (Hinv1 : nativeInv s1) by apply nativeInv_dispatch, nativeInv_initial.
  assert (H1 : started s1 = true /\ duration s1 = valueOf d /\ seekInv s1).
  { unfold s1, dispatch, initial; native_fields.
    unfold onloadedmetadata. rewrite Hd.
    rewrite processFrame_seek by (native_fields; apply FRAME_COUNT_pos).
    unfold seekInv, seeksRequested; native_fields. repeat split; reflexivity. }
  assert (Hs : s = fold_left dispatch events s1) by reflexivity.
  pose proof (native_fold_ind
                (fun s => started s = true /\ duration s = valueOf d /\ seekInv s)
                (fun s e Hinv HP => seek_step (valueOf d) s e Hinv HP)
                events s1 Hinv1 H1) as (Hst & Hdur & Hseek).
  pose proof (nativeInv_fold events s1 Hinv1) as Hinv.
  rewrite <- Hs in *. unfold seekInv in Hseek. rewrite Hdur in Hseek.
  split; [exact Hseek|]. unfold seeksRequested. split.
  - destruct (seeking s) eqn:E.
    + pose proof (inv_seeking s Hinv E). lia.
    + apply (inv_bound s Hinv).
  - intros cs Hcs. destruct (inv_resolved s Hinv cs Hcs) as [_ Hcf].
    destruct (seeking s) eqn:E; [|exact Hcf].
    pose proof (inv_seeking s Hinv E). lia.
Qed.

Lemma native_seek_targets_witness :
  seeksOf (log (processVideoNative [EvLoadedMetadata (Num 120)]))
  = [seekTime 120 0].
Proof.
  destruct (native_seek_targets (Num 120) [] eq_refl) as (H & _).
  exact H.
Defined.

(** ** The object URL *)

Lemma revoke_step s e :
  nativeInv s ->
  (promise s = Pending <-> ~ In Revoke (log s)) ->
  (promise (dispatch s e) = Pending <-> ~ In Revoke (log (dispatch s e))).
Proof.
  intros Hinv H. unfold dispatch.
  destruct (promise s) eqn:Hp; try (rewrite Hp; exact H).
  assert (Hno : ~ In Revoke (log s)) by (apply H; reflexivity).
  assert (Hyes : forall p : Promise (list Color),
            p <> Pending ->
            (p = Pending <-> ~ In Revoke (log s ++ [Revoke]))).
  { intros p Hne. split; [congruence|]. intros Hn. exfalso. apply Hn.
    apply in_or_app. right. left. reflexivity. }
  assert (Hadd : forall a, a <> Revoke ->
            (@Pending (list Color) = Pending <-> ~ In Revoke (log s ++ [a]))).
  { intros a Ha. split; [|reflexivity]. intros _ Hin.
    apply in_app_or in Hin. destruct Hin as [Hin|[Hin|[]]]; [tauto | congruence]. }
  destruct e as [|d|frame|].
  - unfold onerror, settleWith, cleanup; native_fields. rewrite Hp.
    apply Hyes. discriminate.
  - destruct (started s); [rewrite Hp; exact H|].
    unfold onloadedmetadata. destruct (unusable d).
    + unfold settleWith, cleanup; native_fields. rewrite Hp.
      apply Hyes. discriminate.
    + rewrite processFrame_seek by (native_fields; apply FRAME_COUNT_pos).
      native_fields. rewrite Hp. apply Hadd. discriminate.
  - destruct (seeking s); [|rewrite Hp; exact H].
    unfold onseeked; native_fields. rewrite Hp. apply Hadd. discriminate.
  - destruct (timer s); [|rewrite Hp; exact H].
    unfold ontimeout, processFrame; native_fields.
    destruct (Nat.leb_spec FRAME_COUNT (currentFrame s)).
    + unfold settleWith, cleanup; native_fields. rewrite Hp.
      apply Hyes. discriminate.
    + native_fields. rewrite Hp. apply Hadd. discriminate.
Qed.

(** X15. The native path revokes the object URL of the video when it settles its
    promise, whether it resolves or rejects, and not before: in every state
    it reaches, the promise is pending exactly when the URL has not been
    revoked. *)
Theorem native_revokes_on_settle (events : list VideoEvent) :
  let s := processVideoNative events in
  promise s = Pending <-> ~ In Revoke (log s).
Proof.
  apply (native_fold_ind
           (fun s => promise s = Pending <-> ~ In Revoke (log s))
           revoke_step events initial nativeInv_initial).
  simpl. split; [intros _ [] | reflexivity].
Qed.

(** ** What processVideo reports and how it fails *)

Lemma nativePercent_range k :
  (k <= FRAME_COUNT)%nat -> (0 <= nativePercent k <= 100)%Z.
Proof.
  intros Hk. destruct nativePercent_values as (_ & _ & H240).
  pose proof (nativePercent_mono 0 k ltac:(lia)) as H0.
  pose proof (nativePercent_mono k FRAME_COUNT Hk) as H1.
  change (nativePercent 0) with 0%Z in H0. lia.
Qed.

Lemma native_progress_range events :
  Forall (fun p => (0 <= p <= 100)%Z)
         (progressOf (log (processVideoNative events))).
Proof.
  pose proof (processVideoNative_inv events) as Hinv.
  rewrite (inv_progress _ Hinv). apply List.Forall_forall.
  intros p Hp. apply in_map_iff in Hp. destruct Hp as (k & <- & Hk).
  apply in_seq in Hk. apply nativePercent_range.
  pose proof (inv_bound _ Hinv). lia.
Qed.

Lemma readFrames_progress_range env n i colors :
  (1 <= i)%nat -> (i + n <= FRAME_COUNT + 11)%nat ->
  Forall (fun p => (0 <= p <= 100)%Z)
         (progressOf (readFrames env n i colors).1).
Proof.
  intros Hi Hn.
  destruct (readFrames_spec env n i colors) as (l & cs & j & E & Hj & Hp & _).
  rewrite E. cbn [fst]. rewrite Hp. apply List.Forall_forall.
  intros p Hin. apply in_map_iff in Hin. destruct Hin as (k & <- & Hk).
  apply in_seq in Hk.
  pose proof (fallbackPercent_bounds k ltac:(lia)). lia.
Qed.

Lemma fallback_progress_range env :
  Forall (fun p => (0 <= p <= 100)%Z)
         (progressOf (processVideoFFmpeg env).1).
Proof.
  unfold processVideoFFmpeg.
  pose proof (readFrames_progress_range env (FRAME_COUNT + 10) 1 []
                ltac:(lia) ltac:(lia)) as Hloop.
  destruct (readFrames_spec env (FRAME_COUNT + 10) 1 [])
    as (lr & cs & j & E & _). rewrite E in *. cbn [fst] in Hloop.
  set (fps := inject_Z (Z.of_nat FRAME_COUNT) / _).
  destruct (ff_loaded env), (ff_load env), (GiB <? file_size env)%Z,
    (confirmed env), (ff_write env), (ff_probe env), (ff_extract env),
    (ff_deleteInput env);
    cbn [bind emit engine ret throw app fst];
    rewrite ?app_nil_r; cbn [progressOf flat_map app];
    rewrite ?flat_map_app; cbn [flat_map app]; rewrite ?app_nil_r;
    repeat match goal with
           | |- Forall _ [] => constructor
           | |- Forall _ (_ :: _) => constructor; [lia|]
           | |- Forall _ (_ ++ _) => apply Forall_app; split; [exact Hloop|]
           | |- _ => exact Hloop
           end.
Qed.

(** X16. Every value the progress callback receives lies between 0 and 100,
    whatever the video element and the engine do and however the run
    ends. *)
Theorem processVideo_progress_range events env :
  Forall (fun p => (0 <= p <= 100)%Z) (progressOf (processVideo events env).1).
Proof.
  unfold processVideo.
  pose proof (native_progress_range events) as Hn.
  destruct (promise (processVideoNative events)); [exact Hn | exact Hn |].
  destruct (fallsBack message); [|exact Hn].
  pose proof (fallback_progress_range env) as Hf.
  destruct (processVideoFFmpeg env) as [l res]. cbn [fst] in *.
  rewrite progressOf_app. apply Forall_app. split; assumption.
Qed.

Lemma rejection_step s e :
  nativeInv s ->
  (forall m, promise s = Rejected m ->
     m = "Format not supported"%string \/
     m = "Could not determine video duration"%string) ->
  forall m, promise (dispatch s e) = Rejected m ->
     m = "Format not supported"%string \/
     m = "Could not determine video duration"%string.
Proof.
  intros _ H m. unfold dispatch.
  destruct (promise s) eqn:Hp; try (rewrite Hp; apply H).
  destruct e as [|d|frame|].
  - unfold onerror, settleWith, cleanup; native_fields. rewrite Hp. simpl.
    intros E. inversion E. auto.
  - destruct (started s); [rewrite Hp; discriminate|].
    unfold onloadedmetadata. destruct (unusable d).
    + unfold settleWith, cleanup; native_fields. rewrite Hp. simpl.
      intros E. inversion E. auto.
    + rewrite processFrame_seek by (native_fields; apply FRAME_COUNT_pos).
      native_fields. rewrite Hp. discriminate.
  - destruct (seeking s); [|rewrite Hp; discriminate].
    unfold onseeked; native_fields. rewrite Hp. discriminate.
  - destruct (timer s); [|rewrite Hp; discriminate].
    unfold ontimeout, processFrame; native_fields.
    destruct (Nat.leb_spec FRAME_COUNT (currentFrame s)).
    + unfold settleWith, cleanup; native_fields. rewrite Hp. discriminate.
    + native_fields. rewrite Hp. discriminate.
Qed.

Lemma native_rejections events m :
  promise (processVideoNative events) = Rejected m ->
  m = "Format not supported"%string \/
  m = "Could not determine video duration"%string.
Proof.
  revert m.
  apply (native_fold_ind
           (fun s => forall m, promise s = Rejected m ->
              m = "Format not supported"%string \/
              m = "Could not determine video duration"%string)
           rejection_step events initial nativeInv_initial).
  simpl. discriminate.
Qed.

(** X17. [processVideo] never rejects with an error of the native path: each of
    them sends it to the fallback, so the [throw err] of its [catch] is never
    reached. When [processVideo] rejects, the native path had rejected and
    the error is the one the fallback threw. *)
Theorem processVideo_rejects_as_fallback events env l m :
  processVideo events env = (l, Rejected m) ->
  (exists m0, promise (processVideoNative events) = Rejected m0 /\
              fallsBack m0 = true) /\
  (processVideoFFmpeg env).2 = Throw m.
Proof.
  unfold processVideo.
  destruct (promise (processVideoNative events)) as [|v|m0] eqn:Hp;
    try discriminate.
  assert (Hfb : fallsBack m0 = true).
  { destruct (native_rejections events m0 Hp) as [-> | ->]; reflexivity. }
  rewrite Hfb. destruct (processVideoFFmpeg env) as [lf [cs|e]];
    intros H; inversion H; subst.
  split; [exists m0; auto | reflexivity].
Qed.

Lemma processVideo_rejects_as_fallback_witness :
  (processVideoFFmpeg engineOffline).2
  = Throw "failed to import ffmpeg-core.js".
Proof.
  apply (processVideo_rejects_as_fallback [EvError] engineOffline _ _ eq_refl).
Defined.

Lemma engine_step s e :
  nativeInv s ->
  Forall (fun a => isEngineAction a = false) (log s) ->
  Forall (fun a => isEngineAction a = false) (log (dispatch s e)).
Proof.
  intros _ H. unfold dispatch.
  assert (Hadd : forall a, isEngineAction a = false ->
            Forall (fun a => isEngineAction a = false) (log s ++ [a])).
  { intros a Ha. apply Forall_app. split; [exact H|]. repeat constructor. exact Ha. }
  destruct (promise s); try exact H.
  destruct e as [|d|frame|].
  - unfold onerror, settleWith, cleanup; native_fields. apply Hadd. reflexivity.
  - destruct (started s); [exact H|].
    unfold onloadedmetadata. destruct (unusable d).
    + unfold settleWith, cleanup; native_fields. apply Hadd. reflexivity.
    + rewrite processFrame_seek by (native_fields; apply FRAME_COUNT_pos).
      native_fields. apply Hadd. reflexivity.
  - destruct (seeking s); [|exact H].
    unfold onseeked; native_fields. apply Hadd. reflexivity.
  - destruct (timer s); [|exact H].
    unfold ontimeout, processFrame; native_fields.
    destruct (Nat.leb_spec FRAME_COUNT (currentFrame s)).
    + unfold settleWith, cleanup; native_fields. apply Hadd. reflexivity.
    + native_fields. apply Hadd. reflexivity.
Qed.

(** X18. The engine is used only as a fallback: if the log of a run of
    [processVideo] holds a command of the engine (or the question about the
    file size), the native path had rejected; a run that resolves on the
    native path never loads the engine. *)
Theorem engine_only_after_rejection events env a :
  In a (processVideo events env).1 ->
  isEngineAction a = true ->
  exists m, promise (processVideoNative events) = Rejected m.
Proof.
  unfold processVideo. intros Hin Ha.
  assert (Hnative : ~ In a (log (processVideoNative events))).
  { intros Hin'.
    pose proof (native_fold_ind
                  (fun s => Forall (fun a => isEngineAction a = false) (log s))
                  engine_step events initial nativeInv_initial
                  ltac:(constructor)) as H.
    rewrite List.Forall_forall in H. specialize (H a Hin'). congruence. }
  destruct (promise (processVideoNative events)) as [|v|m0];
    try (cbn [fst] in Hin; contradiction).
  exists m0. reflexivity.
Qed.

Lemma engine_only_after_rejection_witness :
  exists m, promise (processVideoNative [EvError]) = Rejected m.
Proof.
  apply (engine_only_after_rejection [EvError]
           (engineWith probeOutput threeFrames) Load).
  - vm_compute. repeat (first [left; reflexivity | right]).
  - reflexivity.
Defined.

(** ** The fallback path: the probe *)

Lemma digit_digitChar (d : Z) : (0 <= d <= 9)%Z -> digit (digitChar d) = Some d.
Proof.
  intros Hd.
  assert (H : (d = 0 \/ d = 1 \/ d = 2 \/ d = 3 \/ d = 4 \/ d = 5 \/ d = 6
               \/ d = 7 \/ d = 8 \/ d = 9)%Z) by lia.
  repeat (destruct H as [-> | H]; [reflexivity|]). subst d. reflexivity.
Qed.

Lemma twoDigits_twoDigitString (n : Z) :
  (0 <= n < 100)%Z ->
  twoDigits (digitChar (n / 10)) (digitChar (n mod 10)) = Some n.
Proof.
  intros Hn. unfold twoDigits.
  rewrite !digit_digitChar.
  - f_equal. pose proof (Z.div_mod n 10 ltac:(lia)). lia.
  - pose proof (Z.mod_pos_bound n 10 ltac:(lia)). lia.
  - split; [apply Z.div_pos; lia|].
    assert (n / 10 < 10)%Z by (apply Z.div_lt_upper_bound; lia). lia.
Qed.

Lemma durationAt_format (h m s c : Z) (suffix : string) :
  (0 <= h < 100)%Z -> (0 <= m < 100)%Z -> (0 <= s < 100)%Z -> (0 <= c < 100)%Z ->
  durationAt (formatDuration h m s c ++ suffix)
  = Some (inject_Z h * 3600 + inject_Z m * 60
          + (inject_Z s + inject_Z c / 100)).
Proof.
  intros Hh Hm Hs Hc. unfold formatDuration, twoDigitString.
  change (durationAt
    ("Duration: " ++
     String (digitChar (h / 10)) (String (digitChar (h mod 10))
     (String ":" (String (digitChar (m / 10)) (String (digitChar (m mod 10))
     (String ":" (String (digitChar (s / 10)) (String (digitChar (s mod 10))
     (String "." (String (digitChar (c / 10)) (String (digitChar (c mod 10))
      suffix)))))))))))%string = Some (inject_Z h * 3600 + inject_Z m * 60
          + (inject_Z s + inject_Z c / 100))).
  unfold durationAt.
  change (stripPrefix "Duration: " ("Duration: " ++ ?x)%string) with (Some x).
  cbv iota beta.
  change (Ascii.eqb ":" ":") with true. change (Ascii.eqb "." ".") with true.
  cbn [andb].
  rewrite !twoDigits_twoDigitString by assumption. reflexivity.
Qed.

Lemma durationAt_other (a : ascii) (rest : string) :
  Ascii.eqb a "D" = false -> durationAt (String a rest) = None.
Proof.
  intros Ha. unfold durationAt. cbn [stripPrefix].
  rewrite Ascii.eqb_sym, Ha. reflexivity.
Qed.

Lemma matchDuration_skip (prefix rest : string) :
  lacks "D" prefix = true ->
  matchDuration (prefix ++ rest) = matchDuration rest.
Proof.
  induction prefix as [|a prefix IH]; intros H; [reflexivity|].
  cbn [lacks] in H. apply andb_prop in H. destruct H as [Ha H].
  apply negb_true_iff in Ha.
  change (String a prefix ++ rest)%string with (String a (prefix ++ rest)%string).
  cbn [matchDuration]. rewrite (durationAt_other a _ Ha). apply IH, H.
Qed.

(** X19. The handler of the probe's log reads the duration back from a line as
    the engine prints it: in a message with [Duration: HH:MM:SS.cc] after
    text without a capital D it finds [HH * 3600 + MM * 60 + SS.cc] seconds,
    whatever follows. *)
Theorem matchDuration_format (h m s c : Z) (prefix suffix : string) :
  (0 <= h < 100)%Z -> (0 <= m < 100)%Z -> (0 <= s < 100)%Z -> (0 <= c < 100)%Z ->
  lacks "D" prefix = true ->
  matchDuration (prefix ++ formatDuration h m s c ++ suffix)
  = Some (inject_Z h * 3600 + inject_Z m * 60
          + (inject_Z s + inject_Z c / 100)).
Proof.
  intros Hh Hm Hs Hc Hp. rewrite matchDuration_skip by exact Hp.
  destruct (formatDuration h m s c ++ suffix)%string eqn:E.
  - unfold formatDuration in E. discriminate.
  - rewrite <- E. 
    assert (Hd := durationAt_format h m s c suffix Hh Hm Hs Hc).
    rewrite E in *. cbn [matchDuration]. rewrite Hd. reflexivity.
Qed.

Lemma matchDuration_format_witness :
  matchDuration "  Duration: 00:01:30.50, start: 0.000000, bitrate: 1024 kb/s"
  = Some (0 * 3600 + 1 * 60 + (30 + 50 / 100)).
Proof.
  apply (matchDuration_format 0 1 30 50 "  "
           ", start: 0.000000, bitrate: 1024 kb/s");
    [lia | lia | lia | lia | reflexivity].
Defined.

Lemma digit_nonneg (c : ascii) (d : Z) : digit c = Some d -> (0 <= d)%Z.
Proof.
  unfold digit.
  destruct ((48 <=? Z.of_nat (nat_of_ascii c)) && (Z.of_nat (nat_of_ascii c) <=? 57))%Z
    eqn:E; [|discriminate].
  intros H. inversion H. apply andb_prop in E. destruct E as [E _].
  apply Z.leb_le in E. lia.
Qed.

Lemma twoDigits_nonneg (c1 c2 : ascii) (n : Z) :
  twoDigits c1 c2 = Some n -> (0 <= n)%Z.
Proof.
  unfold twoDigits.
  destruct (digit c1) as [d1|] eqn:E1; [|discriminate].
  destruct (digit c2) as [d2|] eqn:E2; [|discriminate].
  intros H. inversion H.
  apply digit_nonneg in E1, E2. lia.
Qed.

Lemma durationAt_nonneg (s : string) (d : Q) : durationAt s = Some d -> 0 <= d.
Proof.
  unfold durationAt.
  destruct (stripPrefix "Duration: " s) as [t|]; [|discriminate].
  destruct t as [|h1 [|h2 [|c1 [|m1 [|m2 [|c2 [|s1 [|s2 [|c3 [|f1 [|f2 t]]]]]]]]]]];
    try discriminate.
  destruct (Ascii.eqb c1 ":" && Ascii.eqb c2 ":" && Ascii.eqb c3 ".")%bool;
    [|discriminate].
  destruct (twoDigits h1 h2) as [hours|] eqn:Eh; [|discriminate].
  destruct (twoDigits m1 m2) as [minutes|] eqn:Em; [|discriminate].
  destruct (twoDigits s1 s2) as [secs|] eqn:Es; [|discriminate].
  destruct (twoDigits f1 f2) as [hundredths|] eqn:Ef; [|discriminate].
  intros H. inversion H.
  apply twoDigits_nonneg in Eh, Em, Es, Ef.
  rewrite Zle_Qle in Eh, Em, Es, Ef. change (inject_Z 0) with 0 in *.
  assert (0 <= inject_Z hundredths / 100)
    by (apply Qle_shift_div_l; [reflexivity | lra]).
  lra.
Qed.

Lemma matchDuration_nonneg (s : string) (d : Q) :
  matchDuration s = Some d -> 0 <= d.
Proof.
  induction s as [|a s IH]; cbn [matchDuration].
  - destruct (durationAt EmptyString) eqn:E; [|discriminate].
    intros H. inversion H; subst. eapply durationAt_nonneg, E.
  - destruct (durationAt (String a s)) eqn:E.
    + intros H. inversion H; subst. eapply durationAt_nonneg, E.
    + exact IH.
Qed.

Lemma logHandler_nonneg messages : forall d,
  0 <= d -> 0 <= fold_left logHandler messages d.
Proof.
  induction messages as [|m messages IH]; intros d Hd; simpl; [exact Hd|].
  apply IH. unfold logHandler.
  destruct (matchDuration m) as [d'|] eqn:E; [|exact Hd].
  eapply matchDuration_nonneg, E.
Qed.

Lemma readFrames_actions env n : forall i colors a,
  In a (readFrames env n i colors).1 ->
  (exists j, a = ReadFile j) \/ (exists j, a = DeleteFile j)
  \/ (exists p, a = Progress p).
Proof.
  induction n as [|n IH]; intros i colors a; cbn [readFrames].
  - intros [].
  - destruct (frameFile env i) as [| |data deletes].
    + intros [<-|[]]. eauto.
    + intros [<-|[]]. eauto.
    + destruct deletes; rewrite !bind_emit; cbn [fst snd ret].
      * intros [<-|[<-|[<-|H]]]; eauto.
      * intros [<-|[<-|[]]]; eauto.
Qed.

(** The actions of a run of the fallback: a prefix of the full sequence. *)
Lemma fallback_log_shape env a :
  In a (processVideoFFmpeg env).1 ->
  a = Progress 1 \/ (a = Load /\ ff_loaded env = false)
  \/ (a = Confirm /\ (GiB < file_size env)%Z
      /\ (ff_loaded env = true \/ ff_load env = None))
  \/ a = WriteInput \/ a = Probe \/ a = Progress 10
  \/ a = Extract (inject_Z (Z.of_nat FRAME_COUNT) / extractionDuration env)
  \/ In a (readFrames env (FRAME_COUNT + 10) 1 []).1
  \/ (a = DeleteInput /\ ff_extract env = None)
  \/ (a = Progress 100 /\ ff_deleteInput env = None).
Proof.
  unfold processVideoFFmpeg. intros Hin.
  change (fold_left logHandler (probeLog env) 0) with (probedDuration env) in Hin.
  change (if Qeq_bool (probedDuration env) 0 then 7200 else probedDuration env)
    with (extractionDuration env) in Hin.
  set (fps := inject_Z (Z.of_nat FRAME_COUNT) / _) in *.
  destruct (readFrames_spec env (FRAME_COUNT + 10) 1 [])
    as (lr & cs & j & E & _). rewrite E in *. cbn [fst].
  destruct (ff_loaded env), (ff_load env), (GiB <? file_size env)%Z eqn:Hs,
    (confirmed env), (ff_write env), (ff_probe env), (ff_extract env),
    (ff_deleteInput env);
    try apply Z.ltb_lt in Hs;
    cbn [bind emit engine ret throw app fst] in Hin;
    repeat first [rewrite in_app_iff in Hin | progress cbn [In] in Hin];
    intuition (subst; auto 20).
Qed.

(** X20. The frame rate handed to the extraction is always a positive number:
    a probed duration is never negative, and a duration of zero, probed or
    not found, is replaced by two hours before the division. *)
Theorem fallback_fps_positive env fps :
  In (Extract fps) (processVideoFFmpeg env).1 -> 0 < fps.
Proof.
  intros Hin. apply fallback_log_shape in Hin.
  pose proof (logHandler_nonneg (probeLog env) 0 ltac:(lra)) as Hd.
  fold (probedDuration env) in Hd.
  assert (Hpos : 0 < extractionDuration env).
  { unfold extractionDuration.
    destruct (Qeq_bool (probedDuration env) 0) eqn:E; [reflexivity|].
    apply Qeq_bool_neq in E. lra. }
  destruct Hin as [H|[[H _]|[[H _]|[H|[H|[H|[H|[H|[[H _]|[H _]]]]]]]]]];
    try discriminate.
  - inversion H. apply Qlt_shift_div_l; [exact Hpos | reflexivity].
  - apply readFrames_actions in H.
    destruct H as [[j Hj]|[[j Hj]|[p Hj]]]; discriminate.
Qed.

Lemma fallback_fps_positive_witness :
  exists fps,
    In (Extract fps)
       (processVideoFFmpeg (engineWith probeOutput threeFrames)).1 /\
    0 < fps.
Proof.
  assert (H : { fps | In (Extract fps)
                (processVideoFFmpeg (engineWith probeOutput threeFrames)).1 }).
  { eexists. vm_compute. repeat (first [left; reflexivity | right]). }
  destruct H as [fps H]. exists fps.
  split; [exact H | exact (fallback_fps_positive _ _ H)].
Defined.

Lemma in_bind_l {A B} (m : M A) (k : A -> M B) (a : Action) :
  In a m.1 -> In a (bind m k).1.
Proof.
  destruct m as [l [x|e]]; cbn [fst bind]; [|auto].
  destruct (k x). cbn [fst]. intros H. apply in_or_app. left. exact H.
Qed.

Lemma in_bind_r {A B} (m : M A) (k : A -> M B) (x : A) (a : Action) :
  m.2 = Normal x -> In a (k x).1 -> In a (bind m k).1.
Proof.
  destruct m as [l [y|e]]; cbn [snd bind]; [|discriminate].
  intros E. inversion E; subst. destruct (k x). cbn [fst]. intros H.
  apply in_or_app. right. exact H.
Qed.

(** X21. The question about the file size is asked exactly when the file is
    larger than 1 GiB (and the engine has loaded). When the answer is no,
    the fallback throws, having written nothing to the engine. *)
Theorem fallback_confirmation env :
  (In Confirm (processVideoFFmpeg env).1 <->
   (GiB < file_size env)%Z /\ (ff_loaded env = true \/ ff_load env = None)) /\
  ((GiB < file_size env)%Z ->
   (ff_loaded env = true \/ ff_load env = None) ->
   confirmed env = false ->
   (processVideoFFmpeg env).2
   = Throw "Processing cancelled by user due to file size." /\
   ~ In WriteInput (processVideoFFmpeg env).1).
Proof.
  split; [split|].
  - intros Hin. apply fallback_log_shape in Hin.
    destruct Hin as [H|[[H _]|[[_ H]|[H|[H|[H|[H|[H|[[H _]|[H _]]]]]]]]]];
      try discriminate; [exact H|].
    apply readFrames_actions in H.
    destruct H as [[j Hj]|[[j Hj]|[p Hj]]]; discriminate.
  - intros [Hs Hl]. apply Z.ltb_lt in Hs. unfold processVideoFFmpeg.
    rewrite Hs.
    apply (in_bind_r _ _ tt); [reflexivity|].
    apply (in_bind_r _ _ tt).
    { destruct (ff_loaded env), (ff_load env); try reflexivity.
      destruct Hl; discriminate. }
    apply in_bind_l, in_bind_l. left. reflexivity.
  - intros Hs Hl Hc. apply Z.ltb_lt in Hs. unfold processVideoFFmpeg.
    rewrite Hs, Hc.
    destruct (ff_loaded env), (ff_load env); try (destruct Hl; discriminate);
      cbn [bind emit engine ret throw app fst snd];
      (split; [reflexivity|]); intros Hin;
      repeat (destruct Hin as [Hin|Hin]; [discriminate|]); exact Hin.
Qed.

Lemma fallback_confirmation_witness :
  (processVideoFFmpeg engineDeclined).2
  = Throw "Processing cancelled by user due to file size." /\
  ~ In WriteInput (processVideoFFmpeg engineDeclined).1.
Proof.
  apply (proj2 (fallback_confirmation engineDeclined)).
  - reflexivity.
  - left. reflexivity.
  - reflexivity.
Defined.

(** ** The fallback path: files *)

Lemma readFrames_files env n : forall i colors,
  exists l cs m k,
    readFrames env n i colors = (l, Normal cs) /\
    length cs = (length colors + k)%nat /\
    readsOf l = seq i m /\ deletesOf l = seq i k /\
    (k <= m <= S k)%nat /\ (m <= n)%nat.
Proof.
  induction n as [|n IH]; intros i colors.
  - exists [], colors, O, O. simpl. repeat split; lia.
  - cbn [readFrames]. destruct (frameFile env i) as [| |data deletes].
    + exists [ReadFile i], colors, 1%nat, O. simpl. repeat split; lia.
    + exists [ReadFile i], colors, 1%nat, O. simpl. repeat split; lia.
    + destruct deletes.
      * destruct (IH (S i) (colors ++ [getAverageColor data]))
          as (l & cs & m & k & E & Hlen & Hr & Hd & Hkm & Hm).
        rewrite !bind_emit, E. cbn [fst snd].
        exists (ReadFile i :: DeleteFile i :: Progress (fallbackPercent i) :: l),
               cs, (S m), (S k).
        rewrite length_app in Hlen. simpl in Hlen.
        split; [reflexivity|]. split; [lia|].
        split; [simpl; rewrite Hr; reflexivity|].
        split; [simpl; rewrite Hd; reflexivity|]. lia.
      * rewrite !bind_emit. cbn [fst snd ret].
        exists [ReadFile i; DeleteFile i], (colors ++ [getAverageColor data]),
               1%nat, 1%nat.
        rewrite length_app. simpl. repeat split; lia.
Qed.

(** X22. In a run of the fallback that resolves, the images are read in the
    order of their numbers, from [out001.png] on and at most
    [FRAME_COUNT + 10] of them; [deleteFile] is called once for every colour
    of the result, on the images in the same order; and at most one image,
    the last one read, gives no colour. *)
Theorem fallback_reads_and_deletes env l cs :
  processVideoFFmpeg env = (l, Normal cs) ->
  exists m,
    readsOf l = seq 1 m /\
    deletesOf l = seq 1 (length cs) /\
    (length cs <= m <= S (length cs))%nat /\
    (m <= FRAME_COUNT + 10)%nat.
Proof.
  unfold processVideoFFmpeg.
  destruct (readFrames_files env (FRAME_COUNT + 10) 1 [])
    as (lr & cs' & m & k & E & Hlen & Hr & Hd & Hkm & Hm).
  rewrite E. simpl in Hlen. symmetry in Hlen. subst k.
  set (fps := inject_Z (Z.of_nat FRAME_COUNT) / _).
  destruct (ff_loaded env), (ff_load env), (GiB <? file_size env)%Z,
    (confirmed env), (ff_write env), (ff_probe env), (ff_extract env),
    (ff_deleteInput env);
    cbn [bind emit engine ret throw app]; intros H; inversion H; subst;
    exists m; unfold readsOf, deletesOf in *;
    cbn [flat_map app]; rewrite ?flat_map_app; cbn [flat_map app];
    rewrite ?app_nil_r, Hr, Hd; repeat split; lia.
Qed.

Lemma fallback_reads_and_deletes_witness :
  exists l cs m,
    processVideoFFmpeg (engineWith probeOutput threeFrames) = (l, Normal cs) /\
    readsOf l = seq 1 m /\ deletesOf l = seq 1 (length cs).
Proof.
  eexists _, _.
  destruct (fallback_reads_and_deletes
              (engineWith probeOutput threeFrames) _ _ eq_refl)
    as (m & Hr & Hd & _).
  exists m. split; [reflexivity|]. split; [exact Hr | exact Hd].
Defined.

(** X23. The input file is deleted from the engine only at the very end: if
    [deleteFile(inputName)] was called, the extraction had succeeded and the
    reading loop is over, and the run either resolves with the colours of
    the loop or rejects with what that very call threw. A run in which the
    extraction throws leaves the input in the engine. *)
Theorem fallback_deletes_input_last env :
  In DeleteInput (processVideoFFmpeg env).1 ->
  ff_extract env = None /\
  match (processVideoFFmpeg env).2 with
  | Normal cs => (readFrames env (FRAME_COUNT + 10) 1 []).2 = Normal cs
  | Throw e => ff_deleteInput env = Some e
  end.
Proof.
  intros Hin.
  pose proof (fallback_log_shape env DeleteInput Hin) as Hshape.
  assert (Hex : ff_extract env = None).
  { destruct Hshape as [H|[[H _]|[[H _]|[H|[H|[H|[H|[H|[[_ H]|[H _]]]]]]]]]];
      try discriminate; [|exact H].
    apply readFrames_actions in H.
    destruct H as [[j Hj]|[[j Hj]|[p Hj]]]; discriminate. }
  split; [exact Hex|]. revert Hin. unfold processVideoFFmpeg. rewrite Hex.
  destruct (readFrames_spec env (FRAME_COUNT + 10) 1 [])
    as (lr & cs & j & E & _). rewrite E.
  set (fps := inject_Z (Z.of_nat FRAME_COUNT) / _).
  destruct (ff_loaded env), (ff_load env), (GiB <? file_size env)%Z,
    (confirmed env), (ff_write env), (ff_probe env), (ff_deleteInput env);
    cbn [bind emit engine ret throw app fst snd]; intros Hin;
    try reflexivity;
    repeat (destruct Hin as [Hin|Hin]; [discriminate|]); contradiction.
Qed.

Lemma fallback_deletes_input_last_witness :
  exists cs,
    (processVideoFFmpeg (engineWith probeOutput threeFrames)).2 = Normal cs /\
    (readFrames (engineWith probeOutput threeFrames)
                (FRAME_COUNT + 10) 1 []).2 = Normal cs.
Proof.
  destruct (fallback_deletes_input_last (engineWith probeOutput threeFrames))
    as [_ H].
  - vm_compute. repeat (first [left; reflexivity | right]).
  - eexists. split; [reflexivity | exact H].
Defined.

(** ** File names *)

Example file_name_examples :
  stripExtension "Blade.Runner.1982.mkv" = "Blade.Runner.1982"%string /\
  inputName "Blade.Runner.1982.mkv" = "input.mkv"%string /\
  stripExtension ".mp4" = ""%string /\
  stripExtension "clips/v1.2/take" = "clips/v1.2/take"%string /\
  inputName "movie" = "input.movie"%string /\
  inputName "movie." = "input.mkv"%string.
Proof. repeat split. Qed.

Lemma append_nil_l (s : string) : (EmptyString ++ s)%string = s.
Proof. reflexivity. Qed.

Lemma append_cons (a : ascii) (t s : string) :
  (String a t ++ s)%string = String a (t ++ s).
Proof. reflexivity. Qed.

Lemma plainToEnd_lacks e : plainToEnd e = true -> lacks "." e = true.
Proof.
  induction e as [|a e IH]; [reflexivity|]. cbn [plainToEnd lacks].
  intros H. apply andb_prop in H as [H He]. apply andb_prop in H as [_ Ha].
  rewrite Ha, (IH He). reflexivity.
Qed.

Lemma extensionAt_dot s : extensionAt s = true ->
  exists e, s = String "." e /\ e <> EmptyString /\ plainToEnd e = true.
Proof.
  destruct s as [|a s]; [discriminate|]. unfold extensionAt.
  destruct (Ascii.eqb_spec a ".") as [->|Hne].
  - destruct s as [|c s]; [discriminate|]. intros H.
    exists (String c s). repeat split; [discriminate|exact H].
  - intros H. exfalso.
    destruct a as [[] [] [] [] [] [] [] []]; try discriminate H.
    apply Hne. reflexivity.
Qed.

Lemma extensionAt_false_app t e :
  lacks "." e = true -> t <> EmptyString ->
  extensionAt (t ++ String "." e) = false.
Proof.
  intros He Ht. destruct (extensionAt (t ++ String "." e)) eqn:E; [|reflexivity].
  apply extensionAt_dot in E as (e' & E & _ & Hp).
  destruct t as [|a t]; [contradiction|]. rewrite append_cons in E.
  injection E as -> E. subst e'. apply plainToEnd_lacks in Hp.
  exfalso. clear -Hp.
  induction t as [|c t IH];
    rewrite ?append_nil_l, ?append_cons in Hp; cbn [lacks] in Hp.
  - discriminate.
  - apply andb_prop in Hp as [_ Hp]. auto.
Qed.

Lemma stripExtension_app t e :
  e <> EmptyString -> plainToEnd e = true ->
  stripExtension (t ++ String "." e) = t.
Proof.
  intros Hne Hp. induction t as [|a t IH].
  - rewrite append_nil_l. destruct e as [|c e]; [contradiction|].
    cbn [stripExtension].
    change (extensionAt (String "." (String c e)))
      with (plainToEnd (String c e)).
    rewrite Hp. reflexivity.
  - rewrite append_cons. cbn [stripExtension]. rewrite <- append_cons.
    rewrite extensionAt_false_app by (auto using plainToEnd_lacks; discriminate).
    rewrite ?append_cons, IH. reflexivity.
Qed.

Lemma stripExtension_no_match name :
  (forall t e, name = (t ++ String "." e)%string ->
     e = EmptyString \/ plainToEnd e = false) ->
  stripExtension name = name.
Proof.
  induction name as [|a name IH]; intros H; [reflexivity|].
  cbn [stripExtension].
  destruct (extensionAt (String a name)) eqn:E.
  - apply extensionAt_dot in E as (e & E & Hne & Hp).
    destruct (H EmptyString e E) as [He|He]; [contradiction|congruence].
  - rewrite IH; [reflexivity|]. intros t e ->.
    apply (H (String a t) e). reflexivity.
Qed.

Lemma split_nonempty c s : split c s <> [].
Proof.
  destruct s as [|a s]; cbn [split]; [discriminate|].
  destruct (Ascii.eqb a c); [discriminate|].
  destruct (split c s); discriminate.
Qed.

Lemma pop_cons x l : l <> [] -> pop (x :: l) = pop l.
Proof. destruct l; [contradiction|reflexivity]. Qed.

Lemma split_lacks c e : lacks c e = true -> split c e = [e].
Proof.
  induction e as [|a e IH]; [reflexivity|]. cbn [lacks split].
  intros H. apply andb_prop in H as [Ha He].
  apply negb_true_iff in Ha. rewrite Ha, (IH He). reflexivity.
Qed.

Lemma pop_split_app c t e :
  pop (split c (t ++ String c e)) = pop (split c e).
Proof.
  induction t as [|a t IH]; rewrite ?append_nil_l, ?append_cons; cbn [split].
  - rewrite Ascii.eqb_refl. apply pop_cons, split_nonempty.
  - destruct (Ascii.eqb a c).
    + rewrite pop_cons by apply split_nonempty. exact IH.
    + destruct (split c (t ++ String c e)) as [|p ps] eqn:E.
      * exfalso. exact (split_nonempty _ _ E).
      * destruct ps as [|q ps].
        -- exfalso. clear -E.
           assert (H : (2 <= length (split c (t ++ String c e)))%nat).
           { clear. induction t as [|b t IH];
               rewrite ?append_nil_l, ?append_cons; cbn [split].
             - rewrite Ascii.eqb_refl. cbn [length].
               pose proof (split_nonempty c e).
               destruct (split c e); [contradiction|simpl; lia].
             - destruct (Ascii.eqb b c); [simpl; lia|].
               destruct (split c (t ++ String c e)); simpl in *; lia. }
           rewrite E in H. simpl in H. lia.
        -- rewrite <- IH. reflexivity.
Qed.

Lemma lacks_app c t e : lacks c (t ++ String c e) = false.
Proof.
  induction t as [|a t IH]; rewrite ?append_nil_l, ?append_cons; cbn [lacks].
  - rewrite Ascii.eqb_refl. reflexivity.
  - rewrite IH. apply andb_false_r.
Qed.

Lemma plainToEnd_app_dot e : plainToEnd (e ++ ".") = false.
Proof.
  destruct (plainToEnd (e ++ ".")) eqn:E; [|reflexivity].
  apply plainToEnd_lacks in E. rewrite lacks_app in E. discriminate.
Qed.

Lemma trailing_dot t : forall t' e,
  (t ++ ".")%string = (t' ++ String "." e)%string ->
  e = EmptyString \/ exists e', e = (e' ++ ".")%string.
Proof.
  induction t as [|a t IH]; intros t' e E.
  - rewrite append_nil_l in E. destruct t' as [|b t'].
    + rewrite append_nil_l in E. injection E as <-. left. reflexivity.
    + rewrite append_cons in E. injection E as _ E.
      destruct t'; discriminate E.
  - rewrite append_cons in E. destruct t' as [|b t'].
    + rewrite append_nil_l in E. injection E as _ <-. right.
      exists t. reflexivity.
    + rewrite append_cons in E. injection E as _ E. exact (IH _ _ E).
Qed.

(** X24. [fileName.replace(/\.[^/.]+$/, "")], by which [FilmInfo] makes the
    title and [handleExport] the name of the image, removes the last
    extension and nothing else. A name [t.e] whose extension [e] is not
    empty and has neither dot nor slash becomes [t], whatever [t] is (dots
    in [t] stay, and a name that is only an extension becomes empty), so
    the image is called [t_palette.png]. A name without a dot and a name
    that ends in a dot are unchanged. *)
Theorem stripExtension_last_extension (t e u : string) :
  e <> EmptyString -> plainToEnd e = true -> lacks "." u = true ->
  stripExtension (t ++ "." ++ e) = t /\
  exportName (t ++ "." ++ e) = (t ++ "_palette.png")%string /\
  stripExtension u = u /\
  stripExtension (t ++ ".") = (t ++ ".")%string.
Proof.
  intros Hne Hp Hu. unfold exportName.
  change ("." ++ e)%string with (String "." e).
  rewrite stripExtension_app by assumption.
  split; [reflexivity|]. split; [reflexivity|]. split.
  - apply stripExtension_no_match. intros t' e' ->.
    rewrite lacks_app in Hu. discriminate.
  - apply stripExtension_no_match. intros t' e' E.
    destruct (trailing_dot _ _ _ E) as [->|[e'' ->]]; [left; reflexivity|].
    right. apply plainToEnd_app_dot.
Qed.

Lemma stripExtension_last_extension_witness :
  stripExtension "Blade.Runner.mkv" = "Blade.Runner"%string /\
  exportName "Blade.Runner.mkv" = "Blade.Runner_palette.png"%string /\
  stripExtension "movie" = "movie"%string /\
  stripExtension "Blade.Runner." = "Blade.Runner."%string.
Proof.
  apply (stripExtension_last_extension "Blade.Runner" "mkv" "movie").
  - discriminate.
  - reflexivity.
  - reflexivity.
Defined.

(** X25. The engine's copy of the file is named after the last extension of the
    file's name: [input.e] for a name [t.e] whose last piece [e] is not
    empty. A name that ends in a dot gives [input.mkv], and a name without
    any dot is taken whole as the extension. *)
Theorem inputName_extension (t e u : string) :
  e <> EmptyString -> lacks "." e = true ->
  u <> EmptyString -> lacks "." u = true ->
  inputName (t ++ "." ++ e) = ("input." ++ e)%string /\
  inputName (t ++ ".") = "input.mkv"%string /\
  inputName u = ("input." ++ u)%string.
Proof.
  intros Hne He Hnu Hu. unfold inputName.
  change ("." ++ e)%string with (String "." e).
  change (t ++ ".")%string with (t ++ String "." EmptyString)%string.
  rewrite !pop_split_app, (split_lacks _ _ He), (split_lacks _ _ Hu).
  cbn [split pop orElse].
  destruct e; [contradiction|]. destruct u; [contradiction|].
  repeat split.
Qed.

Lemma inputName_extension_witness :
  inputName "Blade.Runner.mkv" = "input.mkv"%string /\
  inputName "Blade.Runner." = "input.mkv"%string /\
  inputName "movie" = "input.movie"%string.
Proof.
  apply (inputName_extension "Blade.Runner" "mkv" "movie").
  - discriminate.
  - reflexivity.
  - discriminate.
  - reflexivity.
Defined.
